(** * CopyUrlsChrome: the clipboard relay, the tab formatter and the URL extractor

    A shallow embedding of [background.js] (the service worker) and of the
    offscreen helper script, with the parts of the JavaScript runtime and of
    the browser API they call.

    - [Js]: strings as sequences of UTF-16 code units, [String.prototype.trim],
      [String.prototype.split] on a line feed.
    - [Regex]: the fragment of ECMAScript regular expressions the two literals
      of [Action.paste] are written in, with the backtracking matcher and a
      declarative reading of it.
    - [Host]: the browser as a state (tabs, offscreen document, clipboard,
      pending callbacks and messages, a log of the API calls issued, and
      what the browser does to the tabs when it is asked to open one).
    - [Offscreen], [Background]: the two scripts.
    - [EventLoop]: the turns in which pending callbacks run.
    - [Props], [Samples]: the notions the properties are stated with, and
      sample data.
    - [Legacy]: the HTML encoder and the HTML formatter of the fuller
      service worker script; [Popup]: the popup scripts; [More]: notions for
      the properties of whole commands.

    Asynchrony.  The browser calls the callback of [chrome.tabs.query] and of
    [chrome.windows.getCurrent] in a later turn of the event loop, never
    during the call, so these callbacks are queued as tasks.  A call of an
    async function that is not awaited ([Clipboard.write] in the copy
    callback, [Action.paste] in the listener) is queued as one task as well:
    the part of it that runs before its first [await] assigns a local
    variable and asks [chrome.runtime.getContexts] for the contexts, which
    commutes with what the caller does next.  An awaited call runs on the
    spot: the properties below are about one command at a time.  A message
    sent without a callback is delivered in a later turn: one for the helper
    to the helper's listener, the helper's [paste-result] to the service
    worker's listener. *)

From Stdlib Require Import NArith ZArith String Ascii Bool Lia DecimalString.
From stdpp Require Import base tactics option list gmap strings.

Set Default Proof Using "Type".

(* ===================================================================== *)
(** ** JavaScript strings *)
(* ===================================================================== *)

Module Js.

(** A JavaScript string is a finite sequence of 16-bit code units. *)
Abbreviation char16 := N (only parsing).
Abbreviation jsstring := (list N) (only parsing).

(** An ASCII literal of the source as a sequence of code units. *)
Definition lit (s : string) : jsstring := map N_of_ascii (list_ascii_of_string s).

(** U+000A, the character of the source literal ["\n"]. *)
Definition LF : char16 := 10%N.
(** U+0022, the double quote. *)
Definition DQUOTE : char16 := 34%N.

(** Truthiness of a string: only the empty string is falsy. *)
Definition truthy (s : jsstring) : bool :=
  match s with [] => false | _ :: _ => true end.

(** [WhiteSpace] and [LineTerminator] code units, the characters
    [String.prototype.trim] strips: TAB, LF, VT, FF, CR, SP, NBSP, U+1680,
    U+2000..U+200A, LS, PS, U+202F, U+205F, U+3000 and the BOM. *)
Definition is_white_space (c : char16) : bool :=
  ((9 <=? c) && (c <=? 13) || (c =? 32) || (c =? 160) || (c =? 5760)
   || (8192 <=? c) && (c <=? 8202) || (c =? 8232) || (c =? 8233)
   || (c =? 8239) || (c =? 8287) || (c =? 12288) || (c =? 65279))%N.

Fixpoint trim_start (s : jsstring) : jsstring :=
  match s with
  | c :: s' => if is_white_space c then trim_start s' else s
  | [] => []
  end.

Definition trim_end (s : jsstring) : jsstring := rev (trim_start (rev s)).

(** [String.prototype.trim]. *)
Definition str_trim (s : jsstring) : jsstring := trim_end (trim_start s).

(** [s.split("\n")]: the segments between line feeds; a string without a
    line feed (the empty one too) is one segment. *)
Fixpoint split_lf (s : jsstring) : list jsstring :=
  match s with
  | [] => [[]]
  | c :: s' =>
      if (c =? LF)%N then [] :: split_lf s'
      else match split_lf s' with
           | seg :: rest => (c :: seg) :: rest
           | [] => [[c]]
           end
  end.

(** The inverse of [split_lf]: segments joined by a line feed. *)
Fixpoint join_lf (l : list jsstring) : jsstring :=
  match l with
  | [] => []
  | [seg] => seg
  | seg :: rest => seg ++ LF :: join_lf rest
  end.

Definition has_lf (s : jsstring) : bool := existsb (fun c => (c =? LF)%N) s.

End Js.

(* ===================================================================== *)
(** ** Regular expressions *)
(* ===================================================================== *)

Module Regex.
Import Js.

(** The members of a character class: a single character or a range. *)
Inductive class_item :=
| CChar (c : char16)
| CRange (lo hi : char16).

(** Atoms match exactly one code unit. *)
Inductive atom :=
| AChar (c : char16)                          (* a pattern character *)
| AClass (negated : bool) (items : list class_item).  (* [...] and [^...] *)

(** The constructs the two patterns of [Action.paste] use: sequence,
    alternation, greedy [?] and [+], and a capturing group.  [+] is applied to
    atoms only, as in both patterns. *)
Inductive regex :=
| REmpty
| RAtom (a : atom)
| RSeq (r1 r2 : regex)
| RAlt (r1 r2 : regex)
| ROpt (r : regex)
| RPlus (a : atom)
| RGroup (r : regex).

(** The other case of an ASCII letter; every other code unit is left alone.
    Under the [i] flag without [u], [Canonicalize] maps a code unit to its
    upper case unless that would take a code unit of 128 or more below 128;
    so against a pattern of ASCII characters, as both patterns here are, two
    code units are equal under [Canonicalize] exactly when they are equal or
    are the two cases of one ASCII letter. *)
Definition swap_case (c : char16) : char16 :=
  (if (97 <=? c) && (c <=? 122) then c - 32
   else if (65 <=? c) && (c <=? 90) then c + 32
   else c)%N.

Definition char_eq (ignore_case : bool) (p c : char16) : bool :=
  ((c =? p) || ignore_case && (swap_case c =? p))%N.

Definition in_item (ignore_case : bool) (it : class_item) (c : char16) : bool :=
  match it with
  | CChar p => char_eq ignore_case p c
  | CRange lo hi =>
      ((lo <=? c) && (c <=? hi)
       || ignore_case && (lo <=? swap_case c) && (swap_case c <=? hi))%N
  end.

Definition atom_matches (ignore_case : bool) (a : atom) (c : char16) : bool :=
  match a with
  | AChar p => char_eq ignore_case p c
  | AClass negated items =>
      xorb negated (existsb (fun it => in_item ignore_case it c) items)
  end.

(** The captures of the groups closed so far, in the order they closed.  No
    group of the two patterns is nested or optional, so this is the array of
    captures [m[1]], [m[2]], ... *)
Abbreviation captures := (list (list N)) (only parsing).

(** A match result: the input left after the match, and the captures. *)
Definition mresult := (jsstring * captures)%type.
Definition cont := jsstring -> captures -> option mresult.

(** Greedy [a+]: as many code units as match [a], giving them back one at a
    time while the continuation fails. *)
Fixpoint plus_loop (p : char16 -> bool) (s : jsstring) (caps : captures) (k : cont)
  : option mresult :=
  match s with
  | c :: s' =>
      if p c then
        match plus_loop p s' caps k with
        | Some r => Some r
        | None => k s' caps
        end
      else None
  | [] => None
  end.

(** The backtracking matcher, in continuation-passing style as the language
    definition gives it: [m ic r s caps k] matches [r] at the start of [s] and
    hands the rest of the input to [k]; alternatives are tried left to right. *)
Fixpoint m (ic : bool) (r : regex) (s : jsstring) (caps : captures) (k : cont)
  : option mresult :=
  match r with
  | REmpty => k s caps
  | RAtom a =>
      match s with
      | c :: s' => if atom_matches ic a c then k s' caps else None
      | [] => None
      end
  | RSeq r1 r2 => m ic r1 s caps (fun s1 caps1 => m ic r2 s1 caps1 k)
  | RAlt r1 r2 =>
      match m ic r1 s caps k with
      | Some res => Some res
      | None => m ic r2 s caps k
      end
  | ROpt r1 =>
      match m ic r1 s caps k with
      | Some res => Some res
      | None => k s caps
      end
  | RPlus a => plus_loop (atom_matches ic a) s caps k
  | RGroup r1 =>
      m ic r1 s caps
        (fun s' caps' => k s' (caps' ++ [take (length s - length s') s]))
  end.

(** One match attempt at the start of [s]: the matched text and the captures. *)
Definition match_here (ic : bool) (r : regex) (s : jsstring)
  : option (jsstring * captures) :=
  match m ic r s [] (fun s' caps => Some (s', caps)) with
  | Some (s', caps) => Some (take (length s - length s') s, caps)
  | None => None
  end.

(** [RegExp.prototype.exec] without the [g] flag, as [String.prototype.match]
    calls it: the leftmost position at which the pattern matches. *)
Fixpoint exec (ic : bool) (r : regex) (s : jsstring) : option (jsstring * captures) :=
  match match_here ic r s with
  | Some res => Some res
  | None =>
      match s with
      | [] => None
      | _ :: s' => exec ic r s'
      end
  end.

(** The matches collected by [String.prototype.match] with the [g] flag.
    [skip] is the number of code units still to pass before [lastIndex]: after
    a match of [n] code units the search resumes [n] code units further (one
    further after an empty match). *)
Fixpoint scan (ic : bool) (r : regex) (skip : nat) (s : jsstring) : list jsstring :=
  match skip with
  | S n =>
      match s with
      | [] => []
      | _ :: s' => scan ic r n s'
      end
  | O =>
      match match_here ic r s with
      | Some (w, _) =>
          w :: match s with
               | [] => []
               | _ :: s' => scan ic r (length w - 1) s'
               end
      | None =>
          match s with
          | [] => []
          | _ :: s' => scan ic r 0 s'
          end
      end
  end.

(** [s.match(/r/g)]: [null] (here [None]) when nothing matches, else the
    array of the matched substrings. *)
Definition match_global (ic : bool) (r : regex) (s : jsstring) : option (list jsstring) :=
  match scan ic r 0 s with
  | [] => None
  | l => Some l
  end.

(** A literal run of pattern characters. *)
Fixpoint RStr (s : jsstring) : regex :=
  match s with
  | [] => REmpty
  | [c] => RAtom (AChar c)
  | c :: s' => RSeq (RAtom (AChar c)) (RStr s')
  end.

(** The declarative reading: [matches ic r w caps] says that [w] is a word of
    the pattern [r], the groups capturing [caps]. *)
Inductive matches (ic : bool) : regex -> jsstring -> captures -> Prop :=
| M_empty : matches ic REmpty [] []
| M_atom a c : atom_matches ic a c = true -> matches ic (RAtom a) [c] []
| M_seq r1 r2 w1 w2 c1 c2 :
    matches ic r1 w1 c1 -> matches ic r2 w2 c2 ->
    matches ic (RSeq r1 r2) (w1 ++ w2) (c1 ++ c2)
| M_alt_l r1 r2 w c : matches ic r1 w c -> matches ic (RAlt r1 r2) w c
| M_alt_r r1 r2 w c : matches ic r2 w c -> matches ic (RAlt r1 r2) w c
| M_opt_some r w c : matches ic r w c -> matches ic (ROpt r) w c
| M_opt_none r : matches ic (ROpt r) [] []
| M_plus a w :
    w <> [] -> forallb (atom_matches ic a) w = true -> matches ic (RPlus a) w []
| M_group r w c : matches ic r w c -> matches ic (RGroup r) w (c ++ [w]).

End Regex.

(* ===================================================================== *)
(** ** The browser *)
(* ===================================================================== *)

Module Host.
Import Js.

(** A tab descriptor, as [chrome.tabs.query] hands it to the extension. *)
Record Tab := { url : jsstring; title : jsstring; windowId : Z; highlighted : bool }.

(** A window reference of a message; the popup's [window: {}] has no [id]. *)
Record Window := { id : option Z }.

(** The argument of [chrome.tabs.query]: [{}] or [{windowId: w}]. *)
Record TabQuery := { q_windowId : option Z }.

(** [{action:"copy", window, allWindows}] and [{action:"paste", intelligent}];
    [None] is a field that is absent ([undefined]). *)
Record CopyMessage := { msg_window : option Window; msg_allWindows : option bool }.
Record PasteMessage := { msg_intelligent : option bool }.

(** What reaches the service worker's [onMessage] listener. *)
Inductive Message :=
| MCopy (message : CopyMessage)
| MPaste (message : PasteMessage)
| MCheckRecentUpdate
| MPasteResult (text : jsstring)       (* {target:'background', action:'paste-result', text} *)
| MOther.

(** What the scripts send with [chrome.runtime.sendMessage]. *)
Inductive BusMessage :=
| ToOffscreenCopy (text : option jsstring) (extendedMime : option bool)
| ToOffscreenPaste
| NotifyCopy (copied_url : nat)              (* {type:"copy", copied_url} *)
| NotifyPaste (errorMsg : option jsstring)   (* {type:"paste"} and {type:"paste", errorMsg} *)
| PasteResultMsg (text : jsstring).        (* {target:'background', action:'paste-result', text} *)

(** The replies given through [sendResponse]; a [count] of [None] is
    [undefined]. *)
Inductive Response :=
| RespSuccess (count : option nat)      (* {success:true, count} *)
| RespFailure (error : jsstring)        (* {success:false, error} *)
| RespRecentUpdate (recentUpdate : bool)
| RespText (text : jsstring).

(** The API calls a script issued, in order. *)
Inductive Event :=
| EvGetContexts
| EvCreateDocument
| EvSendMessage (msg : BusMessage)
| EvTabsQuery (tabQuery : TabQuery)
| EvTabsCreate (url : jsstring)
| EvGetCurrentWindow
| EvSendResponse (r : Response).

(** Callbacks and detached asynchronous calls the event loop has yet to run.
    A callback is recorded with what its closure captured. *)
Inductive Task :=
| TGetCurrentWindow (message : CopyMessage)     (* callback of chrome.windows.getCurrent *)
| TTabsQuery (tabQuery : TabQuery) (tabCount : nat)   (* callback of chrome.tabs.query; [tabCount] is the captured variable *)
| TClipboardWrite (str : option jsstring) (extended_mime : option bool)  (* Clipboard.write, not awaited *)
| TActionPaste (message : PasteMessage)         (* Action.paste, not awaited *)
| TOffscreenMessage (msg : BusMessage)          (* delivery to the helper's listener *)
| TWorkerMessage (message : Message).           (* delivery to the service worker's listener *)

(** The offscreen document is there or not. *)
Inductive Lifecycle := Absent | Ready.

Inductive ContextType := OFFSCREEN_DOCUMENT.

(** An [oncopy] handler of the helper document: none, the closure that
    [writeToClipboard] installs (with the variables it captured), or any
    other handler, given by what it does to a copy event. *)
Inductive Handler :=
| HNull
| HWriteClosure (text : jsstring) (extendedMime : option bool)
| HOther (prevents : bool) (plain html : option jsstring).

(** The helper document: the [clipboardBuffer] textarea and [document.oncopy]. *)
Record Document := {
  buffer_value : jsstring;
  buffer_selected : bool;
  oncopy : Handler
}.

Record State := {
  offscreen : Lifecycle;
  document : Document;
  tabs : list Tab;                  (* the open tabs of all windows *)
  currentWindow : option Window;    (* what chrome.windows.getCurrent reports *)
  clipboard : jsstring;             (* the system clipboard, text/plain *)
  clipboard_html : option jsstring; (* its text/html flavour *)
  cells : list nat;                 (* variables captured by pending callbacks *)
  queue : list Task;
  log : list Event;
  (* the browser's part in chrome.tabs.create: the open tabs once a tab has
     been opened for the URL; in which window and at which place the tab
     appears, and the URL and title it reports, are the browser's *)
  open_tab : jsstring -> list Tab -> list Tab
}.

Definition set_offscreen (v : Lifecycle) (st : State) : State :=
  {| offscreen := v; document := document st; tabs := tabs st;
     currentWindow := currentWindow st; clipboard := clipboard st;
     clipboard_html := clipboard_html st; cells := cells st;
     queue := queue st; log := log st; open_tab := open_tab st |}.
Definition set_tabs (v : list Tab) (st : State) : State :=
  {| offscreen := offscreen st; document := document st; tabs := v;
     currentWindow := currentWindow st; clipboard := clipboard st;
     clipboard_html := clipboard_html st; cells := cells st;
     queue := queue st; log := log st; open_tab := open_tab st |}.
Definition set_document (v : Document) (st : State) : State :=
  {| offscreen := offscreen st; document := v; tabs := tabs st;
     currentWindow := currentWindow st; clipboard := clipboard st;
     clipboard_html := clipboard_html st; cells := cells st;
     queue := queue st; log := log st; open_tab := open_tab st |}.
Definition set_clipboard (plain : jsstring) (html : option jsstring) (st : State) : State :=
  {| offscreen := offscreen st; document := document st; tabs := tabs st;
     currentWindow := currentWindow st; clipboard := plain;
     clipboard_html := html; cells := cells st;
     queue := queue st; log := log st; open_tab := open_tab st |}.
Definition set_cells (v : list nat) (st : State) : State :=
  {| offscreen := offscreen st; document := document st; tabs := tabs st;
     currentWindow := currentWindow st; clipboard := clipboard st;
     clipboard_html := clipboard_html st; cells := v;
     queue := queue st; log := log st; open_tab := open_tab st |}.
Definition set_queue (v : list Task) (st : State) : State :=
  {| offscreen := offscreen st; document := document st; tabs := tabs st;
     currentWindow := currentWindow st; clipboard := clipboard st;
     clipboard_html := clipboard_html st; cells := cells st;
     queue := v; log := log st; open_tab := open_tab st |}.
Definition set_log (v : list Event) (st : State) : State :=
  {| offscreen := offscreen st; document := document st; tabs := tabs st;
     currentWindow := currentWindow st; clipboard := clipboard st;
     clipboard_html := clipboard_html st; cells := cells st;
     queue := queue st; log := v; open_tab := open_tab st |}.

(** *** Computations: state and exceptions *)

Inductive Outcome (A : Type) :=
| Ok (a : A)
| Throw (message : jsstring).
Arguments Ok {A} a.
Arguments Throw {A} message.

Definition M (A : Type) : Type := State -> Outcome A * State.

Definition ret {A} (a : A) : M A := fun st => (Ok a, st).
Definition bind {A B} (c : M A) (f : A -> M B) : M B :=
  fun st => match c st with
            | (Ok a, st') => f a st'
            | (Throw e, st') => (Throw e, st')
            end.
Definition throw {A} (e : jsstring) : M A := fun st => (Throw e, st).
(** [try { c } catch (e) { handler }] *)
Definition try_catch {A} (c : M A) (handler : jsstring -> M A) : M A :=
  fun st => match c st with
            | (Ok a, st') => (Ok a, st')
            | (Throw e, st') => handler e st'
            end.
Definition get : M State := fun st => (Ok st, st).
Definition modify (f : State -> State) : M unit := fun st => (Ok tt, f st).

Definition final {A} (c : M A) (st : State) : State := snd (c st).
Definition outcome {A} (c : M A) (st : State) : Outcome A := fst (c st).

Declare Scope js_scope.
Delimit Scope js_scope with js.
Notation "x <- c ;; k" := (bind c (fun x => k))
  (at level 100, c at next level, right associativity) : js_scope.
Notation "c ;; k" := (bind c (fun _ => k))
  (at level 100, right associativity) : js_scope.
Local Open Scope js_scope.

Definition emit (e : Event) : M unit := modify (fun st => set_log (log st ++ [e]) st).
Definition enqueue (t : Task) : M unit := modify (fun st => set_queue (queue st ++ [t]) st).

(** A fresh captured variable ([let tabCount = 0]). *)
Definition alloc (v : nat) : M nat :=
  st <- get ;; modify (set_cells (cells st ++ [v])) ;; ret (length (cells st)).
Definition read_cell (c : nat) : M nat :=
  st <- get ;; ret (default 0 (cells st !! c)).
Definition write_cell (c v : nat) : M unit :=
  modify (fun st => set_cells (<[c := v]> (cells st)) st).

(** *** The extension API *)

(** The document a freshly created [offscreen.html] is once its
    [DOMContentLoaded] listener has run: an empty [clipboardBuffer]. *)
Definition fresh_document : Document :=
  {| buffer_value := []; buffer_selected := false; oncopy := HNull |}.

(** [chrome.runtime.getContexts({contextTypes: ['OFFSCREEN_DOCUMENT']})] *)
Definition chrome_runtime_getContexts : M (list ContextType) :=
  emit EvGetContexts ;;
  st <- get ;;
  ret (match offscreen st with Ready => [OFFSCREEN_DOCUMENT] | Absent => [] end).

(** [chrome.offscreen.createDocument]: the browser keeps at most one
    offscreen document per extension and rejects the creation of a second. *)
Definition chrome_offscreen_createDocument : M unit :=
  emit EvCreateDocument ;;
  st <- get ;;
  match offscreen st with
  | Ready => throw (lit "Only a single offscreen document may be created.")
  | Absent => modify (fun st => set_document fresh_document (set_offscreen Ready st))
  end.

Definition for_offscreen (msg : BusMessage) : bool :=
  match msg with
  | ToOffscreenCopy _ _ | ToOffscreenPaste => true
  | _ => false
  end.

(** [chrome.runtime.sendMessage(msg)] without a callback.  The message is
    delivered later, to the listeners of the other scripts.  The helper's
    [paste-result] message reaches the service worker's listener.  A message
    with [target: 'offscreen'] reaches the helper's listener when there is a
    helper.  The deliveries of the notices [{type: "copy"}] and
    [{type: "paste"}] are not followed: the helper's listener returns at
    once on them, and the popup scripts have no listener. *)
Definition chrome_runtime_sendMessage (msg : BusMessage) : M unit :=
  emit (EvSendMessage msg) ;;
  match msg with
  | PasteResultMsg text => enqueue (TWorkerMessage (MPasteResult text))
  | _ =>
      st <- get ;;
      match offscreen st with
      | Ready => if for_offscreen msg then enqueue (TOffscreenMessage msg) else ret tt
      | Absent => ret tt
      end
  end.

(** The tabs [chrome.tabs.query(tabQuery, ...)] selects. *)
Definition query_tabs (tabQuery : TabQuery) (all : list Tab) : list Tab :=
  match q_windowId tabQuery with
  | None => all
  | Some w => List.filter (fun t => (windowId t =? w)%Z) all
  end.

(** [chrome.tabs.query(tabQuery, callback)]: the call returns at once and the
    callback runs in a later turn of the event loop. *)
Definition chrome_tabs_query (tabQuery : TabQuery) (tabCount : nat) : M unit :=
  emit (EvTabsQuery tabQuery) ;; enqueue (TTabsQuery tabQuery tabCount).

(** [chrome.windows.getCurrent(callback)], asynchronous as well. *)
Definition chrome_windows_getCurrent (message : CopyMessage) : M unit :=
  emit EvGetCurrentWindow ;; enqueue (TGetCurrentWindow message).

(** [chrome.tabs.create({url})]: the request is recorded and the browser
    opens the tab. *)
Definition chrome_tabs_create (u : jsstring) : M unit :=
  emit (EvTabsCreate u) ;;
  modify (fun st => set_tabs (open_tab st u (tabs st)) st).

Definition sendResponse (r : Response) : M unit := emit (EvSendResponse r).

End Host.

(* ===================================================================== *)
(** ** The offscreen helper script *)
(* ===================================================================== *)

Module Offscreen.
Import Js Host.
Local Open Scope js_scope.

(** The [copy] event a handler receives: whether [preventDefault] was called
    and what was put into [clipboardData]. *)
Record ClipboardEvent := {
  defaultPrevented : bool;
  data_plain : option jsstring;
  data_html : option jsstring
}.

(** The function [writeToClipboard] assigns to [document.oncopy], closed over
    [text] and [extendedMime]. *)
Definition oncopy_closure (text : jsstring) (extendedMime : option bool)
    (e : ClipboardEvent) : ClipboardEvent :=
  match extendedMime with
  | Some true =>
      {| defaultPrevented := true; data_plain := Some text; data_html := Some text |}
  | _ => e   (* undefined or not true: return at once *)
  end.

Definition run_handler (h : Handler) (e : ClipboardEvent) : ClipboardEvent :=
  match h with
  | HNull => e
  | HWriteClosure text extendedMime => oncopy_closure text extendedMime e
  | HOther prevents plain html =>
      {| defaultPrevented := prevents; data_plain := plain; data_html := html |}
  end.

Definition set_buffer_value (v : jsstring) : M unit :=
  modify (fun st =>
    set_document {| buffer_value := v; buffer_selected := false;
                    oncopy := oncopy (document st) |} st).

(** [clipboardBuffer.select()] *)
Definition select : M unit :=
  modify (fun st =>
    set_document {| buffer_value := buffer_value (document st);
                    buffer_selected := true;
                    oncopy := oncopy (document st) |} st).

Definition set_oncopy (h : Handler) : M unit :=
  modify (fun st =>
    set_document {| buffer_value := buffer_value (document st);
                    buffer_selected := buffer_selected (document st);
                    oncopy := h |} st).

(** [document.execCommand('copy')]: the [copy] event goes to
    [document.oncopy]; unless the handler cancels it the selected text, if
    there is any, becomes the clipboard content, and if the handler cancels
    it the data the handler set does. *)
Definition execCommand_copy : M unit :=
  st <- get ;;
  let doc := document st in
  let e := run_handler (oncopy doc)
             {| defaultPrevented := false; data_plain := None; data_html := None |} in
  if defaultPrevented e then
    match data_plain e, data_html e with
    | None, None => ret tt
    | plain, html => modify (set_clipboard (default [] plain) html)
    end
  else if buffer_selected doc && truthy (buffer_value doc) then
    modify (set_clipboard (buffer_value doc) None)
  else ret tt.

(** [document.execCommand('paste')]: the clipboard text replaces the
    selection of the buffer.  The text is taken as it is: what a textarea
    does to carriage returns is not followed. *)
Definition execCommand_paste : M unit :=
  st <- get ;;
  if buffer_selected (document st) then
    modify (fun st =>
      set_document {| buffer_value := clipboard st; buffer_selected := false;
                      oncopy := oncopy (document st) |} st)
  else ret tt.

Definition writeToClipboard (text : option jsstring) (extendedMime : option bool) : M unit :=
  let text := match text with
              | Some t => if truthy t then t else lit "<empty>"
              | None => lit "<empty>"
              end in
  set_buffer_value text ;;
  select ;;
  st <- get ;;
  let oncopyBackup := oncopy (document st) in
  set_oncopy (HWriteClosure text extendedMime) ;;
  execCommand_copy ;;
  set_oncopy oncopyBackup.

Definition readFromClipboard : M jsstring :=
  set_buffer_value [] ;;
  select ;;
  execCommand_paste ;;
  st <- get ;;
  ret (buffer_value (document st)).

(** The helper's [onMessage] listener; the value is what it passes to
    [sendResponse], if anything.  The timer it starts, which a second later
    sends [{type: 'offscreen-close'}], is left out: no listener of the
    extension acts on that message. *)
Definition onMessage (message : BusMessage) : M (option Response) :=
  match message with
  | ToOffscreenCopy text extendedMime =>
      writeToClipboard text extendedMime ;;
      ret (Some (RespSuccess None))
  | ToOffscreenPaste =>
      text <- readFromClipboard ;;
      chrome_runtime_sendMessage (PasteResultMsg text) ;;
      ret (Some (RespText text))
  | _ => ret None   (* message.target !== 'offscreen' *)
  end.

(** [chrome.runtime.sendMessage(msg, callback)] from the service worker,
    followed up to the call of [callback]: the helper, when there is one,
    handles the message and its reply is the callback's argument; when there
    is none the argument is [undefined]. *)
Definition sendMessage_await (msg : BusMessage) : M (option Response) :=
  emit (EvSendMessage msg) ;;
  st <- get ;;
  match offscreen st with
  | Ready => onMessage msg
  | Absent => ret None
  end.

End Offscreen.

(* ===================================================================== *)
(** ** The service worker, [background.js] *)
(* ===================================================================== *)

Module Background.
Import Js Regex Host.
Local Open Scope js_scope.

(** [$.each(arr, callback)] on an array, for a callback that leaves the
    array alone: the callback on every index from [0] to [arr.length - 1],
    in order. *)
Fixpoint each_from {A} (key : nat) (arr : list A) (callback : nat -> A -> M unit) : M unit :=
  match arr with
  | [] => ret tt
  | val :: rest => callback key val ;; each_from (S key) rest callback
  end.
Definition each {A} (arr : list A) (callback : nat -> A -> M unit) : M unit :=
  each_from 0 arr callback.

(** [function trim(str) { return str ? str.trim() : ''; }] *)
Definition trim (str : option jsstring) : jsstring :=
  match str with
  | Some s => if truthy s then str_trim s else []
  | None => []
  end.

Definition createOffscreenDocumentIfNeeded : M unit :=
  try_catch
    (existingContexts <- chrome_runtime_getContexts ;;
     if (0 <? length existingContexts)%nat then ret tt
     else chrome_offscreen_createDocument)
    (fun error => ret tt).

Module Clipboard.

Definition write (str : option jsstring) (extended_mime : option bool) : M unit :=
  let str := match str with
             | Some [] | None => lit "<empty>"
             | Some s => s
             end in
  try_catch
    (createOffscreenDocumentIfNeeded ;;
     chrome_runtime_sendMessage (ToOffscreenCopy (Some str) extended_mime))
    (fun e => ret tt).

Definition read : M jsstring :=
  try_catch
    (createOffscreenDocumentIfNeeded ;;
     response <- Offscreen.sendMessage_await ToOffscreenPaste ;;
     (* response?.text || '' *)
     ret (match response with
          | Some (RespText text) => if truthy text then text else []
          | _ => []
          end))
    (fun e => ret []).

End Clipboard.

Module CopyTo.

(** The loop body [s += tabs[i].url + '\n'] at index [i]. *)
Definition text_step (tabs : list Tab) (s : jsstring) (i : nat) : jsstring :=
  match tabs !! i with
  | Some tab => s ++ (url tab ++ [LF])
  | None => s
  end.

(** [for (let i = 0; i < tabs.length; i++)] from [s = '']. *)
Definition text (tabs : list Tab) : jsstring :=
  fold_left (text_step tabs) (seq 0 (length tabs)) [].

End CopyTo.

(** [/(https?|ftp|ssh|mailto):\/\/[a-z0-9\/:%_+.,#?!@&=-]+/gi] *)
Definition url_chars : atom :=
  AClass false
    [CRange 97 122; CRange 48 57; CChar 47; CChar 58; CChar 37; CChar 95;
     CChar 43; CChar 46; CChar 44; CChar 35; CChar 63; CChar 33; CChar 64;
     CChar 38; CChar 61; CChar 45]%N.

Definition url_scheme : regex :=
  RAlt (RSeq (RStr (lit "http")) (ROpt (RAtom (AChar 115%N))))
       (RAlt (RStr (lit "ftp")) (RAlt (RStr (lit "ssh")) (RStr (lit "mailto")))).

Definition url_pattern : regex :=
  RSeq (RGroup url_scheme) (RSeq (RStr (lit "://")) (RPlus url_chars)).

(** The anchor pattern of [Action.paste], flag [i]: the characters [<a], one
    or more characters other than [>], the characters [href=], a double
    quote, a group of one or more characters other than a double quote, and
    a double quote. *)
Definition anchor_pattern : regex :=
  RSeq (RStr (lit "<a"))
    (RSeq (RPlus (AClass true [CChar 62%N]))
       (RSeq (RStr (lit "href="))
          (RSeq (RAtom (AChar DQUOTE))
             (RSeq (RGroup (RPlus (AClass true [CChar DQUOTE])))
                (RAtom (AChar DQUOTE)))))).

Definition NO_URL_FOUND : jsstring := lit "No URL found in the clipboard".

Record CopyOpt := { copy_window : option Window; copy_message : option CopyMessage }.
Record PasteOpt := { paste_message : option PasteMessage }.
Record CopyResult := { copy_count : nat }.
(** [{count}] and [{count, error}] *)
Record PasteResult := { paste_count : nat; paste_error : option jsstring }.

Module Action.

(** The callback [Action.copy] passes to [chrome.tabs.query]; [tabCount] is
    the variable of [Action.copy] it captured. *)
Definition copy_callback (tabCount : nat) (tabs : list Tab) : M unit :=
  try_catch
    (let highlighted_tab_only := false in
     let extended_mime := false in
     let tabs_filtered :=
       if highlighted_tab_only then List.filter highlighted tabs else tabs in
     write_cell tabCount (length tabs_filtered) ;;
     let outputText := CopyTo.text tabs_filtered in
     (* Clipboard.write(outputText, extended_mime), not awaited *)
     enqueue (TClipboardWrite (Some outputText) (Some extended_mime)) ;;
     n <- read_cell tabCount ;;
     chrome_runtime_sendMessage (NotifyCopy n))
    (fun e => ret tt).

(** The query [Action.copy] builds: [getAllWindows] is the message's
    [allWindows] when that is defined and [true] otherwise; [tabQuery] is
    [{}], and gets a [windowId] when [getAllWindows] is false and
    [opt.window] and [opt.window.id] are truthy (an [id] of 0 is not). *)
Definition copy_tabQuery (opt : CopyOpt) : TabQuery :=
  let getAllWindows :=
    match copy_message opt with
    | Some message =>
        match msg_allWindows message with
        | Some allWindows => allWindows
        | None => true
        end
    | None => true
    end in
  match copy_window opt with
  | Some window =>
      match id window with
      | Some w =>
          if negb getAllWindows && negb (w =? 0)%Z
          then {| q_windowId := Some w |}
          else {| q_windowId := None |}
      | None => {| q_windowId := None |}
      end
  | None => {| q_windowId := None |}
  end.

Definition copy (opt : CopyOpt) : M CopyResult :=
  tabCount <- alloc 0 ;;
  try_catch
    (let tabQuery := copy_tabQuery opt in
     chrome_tabs_query tabQuery tabCount)
    (fun e => ret tt) ;;
  n <- read_cell tabCount ;;
  ret {| copy_count := n |}.

(** The loop [$.each(urlList, function(key, val) {...})] of [Action.paste]
    at index [key]: [urlList[key]] becomes the [href] of the anchor found in
    it, if one is found, and is then trimmed. *)
Definition unwrap_step (urlList : list jsstring) (key : nat) : list jsstring :=
  match urlList !! key with
  | None => urlList
  | Some val =>
      let matches := exec true anchor_pattern val in
      let urlList1 :=
        match matches with
        | Some (_, caps) =>
            match caps !! 0%nat with
            | Some m1 => if truthy m1 then <[key := m1]> urlList else urlList
            | None => urlList
            end
        | None => urlList
        end in
      <[key := trim (urlList1 !! key)]> urlList1
  end.

(** The same [$.each], here with a callback that assigns to the array it
    runs over: the array is the state of the loop, and [val] is read from it
    at each index. *)
Definition unwrap_all (urlList : list jsstring) : list jsstring :=
  fold_left unwrap_step (seq 0 (length urlList)) urlList.

(** The filter of [Action.paste]: the entries that are neither the empty
    string nor [undefined] stay. *)
Definition conforming (urlList : list jsstring) : list jsstring :=
  List.filter truthy urlList.

(** The first step of the extraction: the [g]-flag match in intelligent
    mode ([null] when nothing matches), the lines otherwise. *)
Definition split_or_match (useIntelligentPaste : bool) (clipboardString : jsstring)
  : option (list jsstring) :=
  if useIntelligentPaste then match_global true url_pattern clipboardString
  else Some (split_lf clipboardString).

(** [opt.message && opt.message.intelligent === true] *)
Definition useIntelligentPaste (opt : PasteOpt) : bool :=
  match paste_message opt with
  | Some message =>
      match msg_intelligent message with Some true => true | _ => false end
  | None => false
  end.

Definition paste (opt : PasteOpt) : M PasteResult :=
  try_catch
    (clipboardString <- Clipboard.read ;;
     let useIntelligentPaste := useIntelligentPaste opt in
     match split_or_match useIntelligentPaste clipboardString with
     | None =>
         chrome_runtime_sendMessage (NotifyPaste (Some NO_URL_FOUND)) ;;
         ret {| paste_count := 0; paste_error := Some NO_URL_FOUND |}
     | Some urlList =>
         let urlList := unwrap_all urlList in
         let urlList := conforming urlList in
         let urlCount := length urlList in
         each urlList (fun key val => chrome_tabs_create val) ;;
         chrome_runtime_sendMessage (NotifyPaste None) ;;
         ret {| paste_count := urlCount; paste_error := None |}
     end)
    (fun e => ret {| paste_count := 0; paste_error := Some e |}).

(** The URL Extractor of the specification, [extract(text, mode)]: the list
    [Action.paste] has in [urlList] when it opens the tabs, empty when the
    [g]-flag match gave [null]. *)
Definition extract (useIntelligentPaste : bool) (clipboardString : jsstring)
  : list jsstring :=
  match split_or_match useIntelligentPaste clipboardString with
  | None => []
  | Some urlList => conforming (unwrap_all urlList)
  end.

End Action.

Module UpdateManager.
Definition recentUpdate : bool := false.
End UpdateManager.

(** The service worker's [chrome.runtime.onMessage] listener. *)
Definition onMessage (message : Message) : M unit :=
  match message with
  | MPasteResult text => sendResponse (RespText text)
  | MCheckRecentUpdate => sendResponse (RespRecentUpdate UpdateManager.recentUpdate)
  | MCopy message =>
      try_catch
        (let has_id := match msg_window message with
                       | Some window =>
                           match id window with
                           | Some w => negb (w =? 0)%Z
                           | None => false
                           end
                       | None => false
                       end in
         if negb has_id then chrome_windows_getCurrent message
         else
           result <- Action.copy {| copy_window := msg_window message;
                                    copy_message := Some message |} ;;
           sendResponse (RespSuccess (Some (copy_count result))))
        (fun e => sendResponse (RespFailure e))
  | MPaste message =>
      try_catch
        (* [Action.paste] is async and the call is not awaited: [result] is a
           promise, and [result.count] is [undefined] *)
        (enqueue (TActionPaste message) ;;
         sendResponse (RespSuccess None))
        (fun e => sendResponse (RespFailure e))
  | MOther => ret tt
  end.

(** The callback the listener passes to [chrome.windows.getCurrent]. *)
Definition getCurrent_callback (message : CopyMessage) (win : option Window) : M unit :=
  result <- Action.copy {| copy_window := win; copy_message := Some message |} ;;
  sendResponse (RespSuccess (Some (copy_count result))).

End Background.

(* ===================================================================== *)
(** ** The event loop *)
(* ===================================================================== *)

Module EventLoop.
Import Js Host Background.
Local Open Scope js_scope.

Definition run_task (t : Task) : M unit :=
  match t with
  | TGetCurrentWindow message =>
      st <- get ;; getCurrent_callback message (currentWindow st)
  | TTabsQuery tabQuery tabCount =>
      st <- get ;; Action.copy_callback tabCount (query_tabs tabQuery (tabs st))
  | TClipboardWrite str extended_mime => Clipboard.write str extended_mime
  | TActionPaste message =>
      Action.paste {| paste_message := Some message |} ;; ret tt
  | TOffscreenMessage msg => Offscreen.onMessage msg ;; ret tt
  | TWorkerMessage message => onMessage message
  end.

(** One turn: the oldest pending task runs to completion. *)
Definition step (st : State) : option State :=
  match queue st with
  | [] => None
  | t :: rest => Some (final (run_task t) (set_queue rest st))
  end.

Fixpoint drain (fuel : nat) (st : State) : State :=
  match fuel with
  | O => st
  | S fuel' =>
      match step st with
      | None => st
      | Some st' => drain fuel' st'
      end
  end.

(** How many turns a task can take, counting the tasks it leaves behind. *)
Definition weight (t : Task) : nat :=
  match t with
  | TGetCurrentWindow _ => 4
  | TTabsQuery _ _ => 3
  | TClipboardWrite _ _ => 2
  | TActionPaste _ => 2
  | TOffscreenMessage ToOffscreenPaste => 2
  | TOffscreenMessage _ => 1
  | TWorkerMessage (MCopy _) => 5
  | TWorkerMessage (MPaste _) => 3
  | TWorkerMessage _ => 1
  end.

Definition queue_weight (st : State) : nat := list_sum (map weight (queue st)).

(** The service worker receives [message]; the event loop then runs until
    nothing is pending. *)
Definition deliver (message : Message) (st : State) : State :=
  let st' := final (onMessage message) st in
  drain (queue_weight st') st'.

End EventLoop.

(* ===================================================================== *)
(** ** The properties stated of the patterns and of the extraction *)
(* ===================================================================== *)

Module Props.
Import Js Regex Host Background.

(** Equality of a word with a pattern literal under the [i] flag. *)
Definition ci_equal (p w : jsstring) : Prop :=
  Forall2 (fun pc c => char_eq true pc c = true) p w.

(** [w] is an anchor opening with [u] as its [href]: the letters of [<a], at
    least one character other than [>], the letters of [href=], and [u],
    non-empty and free of double quotes, between double quotes. *)
Definition is_anchor (w u : jsstring) : Prop :=
  exists a mid h,
    w = a ++ mid ++ h ++ [DQUOTE] ++ u ++ [DQUOTE]
    /\ ci_equal (lit "<a") a
    /\ mid <> [] /\ Forall (fun c => c <> 62%N) mid
    /\ ci_equal (lit "href=") h
    /\ u <> [] /\ Forall (fun c => c <> DQUOTE) u.

Definition contains_anchor (seg : jsstring) : Prop :=
  exists pre w u post, seg = pre ++ w ++ post /\ is_anchor w u.

(** A permitted URL character: an ASCII letter, a digit, or one of
    [/ : % _ + . , # ? ! @ & = -]. *)
Definition url_char (c : char16) : bool :=
  ((97 <=? c) && (c <=? 122) || (65 <=? c) && (c <=? 90)
   || (48 <=? c) && (c <=? 57)
   || existsb (N.eqb c) [47; 58; 37; 95; 43; 46; 44; 35; 63; 33; 64; 38; 61; 45])%N.

(** [w] is a URL of the pattern: one of the five schemes in any case, then
    [://], then at least one permitted character. *)
Definition is_url (w : jsstring) : Prop :=
  exists scheme body,
    w = scheme ++ lit "://" ++ body
    /\ (ci_equal (lit "http") scheme \/ ci_equal (lit "https") scheme
        \/ ci_equal (lit "ftp") scheme \/ ci_equal (lit "ssh") scheme
        \/ ci_equal (lit "mailto") scheme)
    /\ body <> [] /\ forallb url_char body = true.

(** [tiles ic r s ws]: [ws] are the matches of [r] in [s] from left to
    right, one after the other; between two of them, before the first and
    after the last, [r] matches at no position. *)
Inductive tiles (ic : bool) (r : regex) : jsstring -> list jsstring -> Prop :=
| tiles_end gap :
    (forall g1 g2, gap = g1 ++ g2 -> match_here ic r g2 = None) ->
    tiles ic r gap []
| tiles_match gap w caps rest ws :
    (forall g1 g2, gap = g1 ++ g2 -> g2 <> [] ->
       match_here ic r (g2 ++ w ++ rest) = None) ->
    match_here ic r (w ++ rest) = Some (w, caps) ->
    tiles ic r rest ws ->
    tiles ic r (gap ++ w ++ rest) (w :: ws).

(** The anchor's [href] when the segment holds an anchor, else the segment. *)
Definition href_or_self (seg : jsstring) : jsstring :=
  match exec true anchor_pattern seg with
  | Some (_, u :: _) => if truthy u then u else seg
  | _ => seg
  end.

(** The extraction in line-split mode, as the specification words it: split
    on line feeds, unwrap anchors, trim, drop what is empty. *)
Definition extract_lines (text : jsstring) : list jsstring :=
  List.filter truthy (map (fun seg => str_trim (href_or_self seg)) (split_lf text)).

(** The tab formatter as the specification words it. *)
Definition toText (tabs : list Tab) : jsstring :=
  concat (map (fun tab => url tab ++ [LF]) tabs).

(** The URLs of the tab-creation requests in a log, in order. *)
Definition tabs_created (l : list Event) : list jsstring :=
  omap (fun e => match e with EvTabsCreate u => Some u | _ => None end) l.

(** How often the creation primitive was called. *)
Definition documents_created (l : list Event) : nat :=
  length (List.filter (fun e => match e with EvCreateDocument => true | _ => false end) l).

(** The number of live helper instances. *)
Definition live_helpers (st : State) : nat :=
  match offscreen st with Ready => 1 | Absent => 0 end.

(** What a write request leaves on the clipboard, as the specification
    words it: the placeholder for the empty string and for [undefined], the
    text itself otherwise. *)
Definition text_or_placeholder (str : option jsstring) : jsstring :=
  match str with
  | Some (c :: s) => c :: s
  | _ => lit "<empty>"
  end.

(** The state a call of [createOffscreenDocumentIfNeeded] leaves. *)
Definition ensured (st : State) : State :=
  match offscreen st with
  | Ready => set_log (log st ++ [EvGetContexts]) st
  | Absent =>
      set_document fresh_document
        (set_offscreen Ready (set_log ((log st ++ [EvGetContexts]) ++ [EvCreateDocument]) st))
  end.

(** The state [Clipboard.read] leaves: the helper is there, it was asked
    for the clipboard text, read it through its buffer and sent it back,
    in its reply and in a [paste-result] message that the service worker's
    listener has yet to receive. *)
Definition after_read (st : State) : State :=
  let st1 := ensured st in
  set_document {| buffer_value := clipboard st; buffer_selected := false;
                  oncopy := oncopy (document st1) |}
    (set_queue (queue st1 ++ [TWorkerMessage (MPasteResult (clipboard st))])
       (set_log ((log st1 ++ [EvSendMessage ToOffscreenPaste])
                 ++ [EvSendMessage (PasteResultMsg (clipboard st))]) st1)).

(** The open tabs once the browser has opened a tab for each of [urls], in
    order. *)
Definition opened (st : State) (urls : list jsstring) : list Tab :=
  fold_left (fun all u => open_tab st u all) urls (tabs st).

(** The replies given through [sendResponse], in order. *)
Definition responses (l : list Event) : list Response :=
  omap (fun e => match e with EvSendResponse r => Some r | _ => None end) l.

End Props.

(** Sample data for the worked instances. *)
Module Samples.
Import Js Host.

Definition tab_at (w : Z) (u : jsstring) : Tab :=
  {| url := u; title := []; windowId := w; highlighted := false |}.

(** Two windows: window 1 with two tabs and window 2 with one. *)
Definition three_tabs : list Tab :=
  [tab_at 1 (lit "http://a.test"); tab_at 2 (lit "https://b.test/path");
   tab_at 1 (lit "ftp://c.test")].

(** A browser with these tabs, no helper yet, an empty clipboard, nothing
    pending and nothing logged; window 1 is the current one, and a new tab
    opens as its last tab. *)
Definition browser : State :=
  {| offscreen := Absent; document := fresh_document; tabs := three_tabs;
     currentWindow := Some {| id := Some 1%Z |};
     clipboard := []; clipboard_html := None;
     cells := []; queue := []; log := [];
     open_tab := fun u all => all ++ [tab_at 1 u] |}.

(** The same browser with a window whose id is 0: one tab in window 0, one
    in window 1, the current one. *)
Definition zero_tabs : list Tab :=
  [tab_at 0 (lit "http://z.test"); tab_at 1 (lit "http://a.test")].
Definition browser_zero : State := set_tabs zero_tabs browser.

End Samples.

(* ===================================================================== *)
(** ** The fuller service worker script: HTML output *)
(* ===================================================================== *)

Module Legacy.
Import Js Host.

(** [s.replace(/c/g, repl)] where the pattern is the single character [c]
    and [repl] holds no [$]: every occurrence of [c] becomes [repl]. *)
Definition replace_char (c : char16) (repl : jsstring) (s : jsstring) : jsstring :=
  flat_map (fun x => if (x =? c)%N then repl else [x]) s.

Module htmlEntityEncoder.

(** The five replacements in the order of the source: the ampersand first,
    then [<], [>], the double quote and the apostrophe. *)
Definition htmlEncode (text : jsstring) : jsstring :=
  replace_char 39 (lit "&#39;")
    (replace_char DQUOTE (lit "&quot;")
       (replace_char 62 (lit "&gt;")
          (replace_char 60 (lit "&lt;")
             (replace_char 38 (lit "&amp;") text)))).

End htmlEntityEncoder.

(** The global [localStorage]: its items, or [None] where the global is not
    defined, as in a service worker; reading it then throws. *)
Definition storage := option (gmap string (list N)).

Definition storage_item (localStorage : storage) (key : string) : Outcome (option jsstring) :=
  match localStorage with
  | None => Throw (lit "localStorage is not defined")
  | Some items => Ok (items !! key)
  end.

Module CopyTo.

(** What the loop of [CopyTo.html] appends for one tab: the anchor with the
    URL as [href], and as text the URL again or, when the [anchor] setting
    is [title], the encoded title. *)
Definition html_row (anchor : jsstring) (tab : Tab) : jsstring :=
  let row_anchor :=
    if bool_decide (anchor = lit "title")
    then htmlEntityEncoder.htmlEncode (title tab)
    else url tab in
  lit "<a href=" ++ [DQUOTE] ++ url tab ++ [DQUOTE] ++ lit ">"
    ++ row_anchor ++ lit "</a><br/>" ++ [LF].

Definition html_step (anchor : jsstring) (tabs : list Tab) (s : jsstring) (i : nat)
  : jsstring :=
  match tabs !! i with
  | Some tab => s ++ html_row anchor tab
  | None => s
  end.

Definition html (localStorage : storage) (tabs : list Tab) : Outcome jsstring :=
  match storage_item localStorage "anchor" with
  | Throw e => Throw e
  | Ok item =>
      let anchor := match item with
                    | Some v => if truthy v then v else lit "url"
                    | None => lit "url"
                    end in
      Ok (fold_left (html_step anchor tabs) (seq 0 (length tabs)) [])
  end.

End CopyTo.

End Legacy.

(* ===================================================================== *)
(** ** The popup scripts *)
(* ===================================================================== *)

Module Popup.
Import Js Host.

(** The status line: [textContent] and the two style properties
    [showStatus] sets. *)
Record Status := {
  textContent : jsstring;
  color : jsstring;
  backgroundColor : jsstring
}.

Definition showStatus (message color : jsstring) : Status :=
  {| textContent := message;
     color := color;
     backgroundColor :=
       if bool_decide (color = lit "red") then lit "#ffeeee"
       else if bool_decide (color = lit "green") then lit "#eeffee"
       else lit "#eeeeff" |}.

(** A count in decimal, as string concatenation prints a number. *)
Definition number_to_string (n : nat) : jsstring :=
  lit (NilEmpty.string_of_uint (Nat.to_uint n)).

(** [response.count || "all"]: a count of 0 and an undefined count are
    falsy. *)
Definition count_or_all (count : option nat) : jsstring :=
  match count with
  | Some (S n) => number_to_string (S n)
  | _ => lit "all"
  end.

(** The message the copy button sends; [checked] is the state of the
    "all windows" box. *)
Definition copy_click (checked : bool) : CopyMessage :=
  {| msg_window := Some {| id := None |}; msg_allWindows := Some checked |}.

(** The message the paste button sends. *)
Definition paste_click : PasteMessage := {| msg_intelligent := Some false |}.

(** The callback of the copy button's [sendMessage]; [None] is an
    undefined response. *)
Definition copy_response (response : option Response) : Status :=
  match response with
  | Some (RespSuccess count) =>
      showStatus (lit "Copied " ++ count_or_all count ++ lit " URLs!") (lit "green")
  | _ => showStatus (lit "Error copying URLs") (lit "red")
  end.

(** The callback of the paste button's [sendMessage]. *)
Definition paste_response (response : option Response) : Status :=
  match response with
  | Some (RespSuccess count) =>
      showStatus (lit "Pasted " ++ count_or_all count ++ lit " URLs!") (lit "green")
  | Some (RespFailure error) =>
      if truthy error then showStatus error (lit "red")
      else showStatus (lit "Done") (lit "green")
  | _ => showStatus (lit "Done") (lit "green")
  end.

End Popup.

(* ===================================================================== *)
(** ** Notions for the properties of whole commands *)
(* ===================================================================== *)

Module More.
Import Js Regex Host Background Props.

(** The entity of a character, or the character itself. *)
Definition entity (c : char16) : jsstring :=
  if (c =? 38)%N then lit "&amp;"
  else if (c =? 60)%N then lit "&lt;"
  else if (c =? 62)%N then lit "&gt;"
  else if (c =? DQUOTE)%N then lit "&quot;"
  else if (c =? 39)%N then lit "&#39;"
  else [c].

(** The id of a window reference when it has one that is not 0. *)
Definition usable_id (window : option Window) : option Z :=
  match window with
  | Some {| id := Some w |} => if (w =? 0)%Z then None else Some w
  | _ => None
  end.

(** The tabs a copy command selects in a state: those of the window named
    in the message or else of the current window when [allWindows] is
    false and that window has a usable id, and all tabs otherwise. *)
Definition selected_tabs (message : CopyMessage) (st : State) : list Tab :=
  match msg_allWindows message with
  | Some false =>
      match usable_id (msg_window message) with
      | Some w => List.filter (fun t => (windowId t =? w)%Z) (tabs st)
      | None =>
          match usable_id (currentWindow st) with
          | Some w => List.filter (fun t => (windowId t =? w)%Z) (tabs st)
          | None => tabs st
          end
      end
  | _ => tabs st
  end.

(** A URL that survives the text format and the line-split extraction:
    no line feed, no white space at either end, not empty, no anchor. *)
Definition line_safe (u : jsstring) : Prop :=
  has_lf u = false /\ str_trim u = u /\ u <> [] /\ ~ contains_anchor u.

(** The events logged between two states. *)
Definition events_since (before after : State) : list Event :=
  drop (length (log before)) (log after).

(** The reply to a command that arrived in state [before]: the first
    response the listener gives from then on.  A later response answers a
    message that arrived later, as the helper's [paste-result] does. *)
Definition reply (before after : State) : option Response :=
  head (responses (events_since before after)).

(** The query a copy command ends up with: built from the window of the
    message when that has a usable id, from the current window otherwise. *)
Definition effective_query (message : CopyMessage) (st : State) : TabQuery :=
  match usable_id (msg_window message) with
  | Some _ =>
      Action.copy_tabQuery {| copy_window := msg_window message;
                              copy_message := Some message |}
  | None =>
      Action.copy_tabQuery {| copy_window := currentWindow st;
                              copy_message := Some message |}
  end.

(** The state once a copy with query [q], called in state [st], has run
    through: the callback counted and formatted the tabs and told the popup,
    the detached write made sure of the helper and sent it the text, and the
    helper put the text on the clipboard. *)
Definition copy_done (q : TabQuery) (st : State) : State :=
  let sel := query_tabs q (tabs st) in
  let text := text_or_placeholder (Some (CopyTo.text sel)) in
  let s2 := set_log (((log st ++ [EvTabsQuery q])
                      ++ [EvSendResponse (RespSuccess (Some 0))])
                     ++ [EvSendMessage (NotifyCopy (length sel))])
              (set_cells (cells st ++ [length sel]) st) in
  let s3 := ensured s2 in
  set_document {| buffer_value := text; buffer_selected := true;
                  oncopy := oncopy (document s3) |}
    (set_clipboard text None
       (set_queue []
          (set_log (log s3 ++ [EvSendMessage (ToOffscreenCopy (Some text) (Some false))])
             s3))).

(** A state in which the browser reports no current window. *)
Definition without_current_window (st : State) : State :=
  {| offscreen := offscreen st; document := document st; tabs := tabs st;
     currentWindow := None; clipboard := clipboard st;
     clipboard_html := clipboard_html st; cells := cells st;
     queue := queue st; log := log st; open_tab := open_tab st |}.

(** The state a copy command leaves when nothing was pending. *)
Definition copy_command_done (message : CopyMessage) (st : State) : State :=
  match usable_id (msg_window message) with
  | Some _ => copy_done (effective_query message st) st
  | None =>
      copy_done (effective_query message st)
        (set_log (log st ++ [EvGetCurrentWindow]) st)
  end.

End More.

Import Js Regex Host Background Props Samples.
Import More.

(* ===================================================================== *)
(** ** Strings *)
(* ===================================================================== *)

Lemma split_lf_not_nil s : split_lf s <> [].
Proof.
  destruct s as [|c s]; simpl; [discriminate|].
  destruct (c =? LF)%N; [discriminate|].
  destruct (split_lf s); discriminate.
Qed.

Lemma split_lf_cons_other c s :
  (c =? LF)%N = false ->
  exists seg rest, split_lf s = seg :: rest /\ split_lf (c :: s) = (c :: seg) :: rest.
Proof.
  intros Hc. simpl. rewrite Hc.
  destruct (split_lf s) as [|seg rest] eqn:E.
  - exfalso. eapply split_lf_not_nil; eauto.
  - eauto.
Qed.

Lemma split_lf_app_lf u s :
  has_lf u = false -> split_lf (u ++ LF :: s) = u :: split_lf s.
Proof.
  induction u as [|c u IH]; simpl; intros H.
  - reflexivity.
  - apply orb_false_elim in H as [Hc Hu].
    rewrite Hc, (IH Hu). reflexivity.
Qed.

Lemma split_lf_no_lf u : has_lf u = false -> split_lf u = [u].
Proof.
  induction u as [|c u IH]; simpl; intros H.
  - reflexivity.
  - apply orb_false_elim in H as [Hc Hu].
    rewrite Hc, (IH Hu). reflexivity.
Qed.

Lemma join_split_lf s : join_lf (split_lf s) = s.
Proof.
  induction s as [|c s IH]; [reflexivity|].
  destruct (c =? LF)%N eqn:Hc.
  - simpl. rewrite Hc. apply N.eqb_eq in Hc. subst c.
    destruct (split_lf s) eqn:E; [exfalso; eapply split_lf_not_nil; eauto|].
    simpl in *. rewrite IH. reflexivity.
  - destruct (split_lf_cons_other c s Hc) as (seg & rest & E1 & E2).
    rewrite E2. rewrite E1 in IH. destruct rest; simpl in *; congruence.
Qed.

Lemma split_lf_segments s : Forall (fun seg => has_lf seg = false) (split_lf s).
Proof.
  induction s as [|c s IH]; simpl.
  - repeat constructor.
  - destruct (c =? LF)%N eqn:Hc.
    + constructor; [reflexivity|assumption].
    + destruct (split_lf s) as [|seg rest]; [repeat constructor; simpl; now rewrite Hc|].
      inversion IH; subst. constructor; [simpl; now rewrite Hc|assumption].
Qed.

(* ===================================================================== *)
(** ** The tab formatter *)
(* ===================================================================== *)

Lemma text_loop_from (pre rest : list Tab) (acc : jsstring) :
  fold_left (CopyTo.text_step (pre ++ rest)) (seq (length pre) (length rest)) acc
  = acc ++ toText rest.
Proof.
  revert pre acc. induction rest as [|tab rest IH]; intros pre acc; simpl.
  - now rewrite app_nil_r.
  - unfold CopyTo.text_step at 2.
    rewrite list_lookup_middle by reflexivity.
    replace (pre ++ tab :: rest) with ((pre ++ [tab]) ++ rest)
      by now rewrite <- app_assoc.
    replace (S (length pre)) with (length (pre ++ [tab]))
      by (rewrite length_app; simpl; lia).
    rewrite IH. unfold toText. simpl. now rewrite <- !app_assoc.
Qed.

Lemma text_toText tabs : CopyTo.text tabs = toText tabs.
Proof. exact (text_loop_from [] tabs []). Qed.

Lemma toText_app t1 t2 : toText (t1 ++ t2) = toText t1 ++ toText t2.
Proof. unfold toText. now rewrite map_app, concat_app. Qed.

(** C3. [CopyTo.text] is the concatenation, in input order, of every tab's
    URL followed by a line feed; it maps the empty sequence to the empty
    string, and being a function of its argument alone it gives equal
    results on equal inputs. *)
Theorem CopyTo_text_concat :
  (forall tabs : list Tab,
      CopyTo.text tabs = concat (map (fun tab => url tab ++ [LF]) tabs))
  /\ CopyTo.text [] = []
  /\ (forall tab tabs, CopyTo.text (tab :: tabs) = url tab ++ [LF] ++ CopyTo.text tabs)
  /\ (forall t1 t2, CopyTo.text (t1 ++ t2) = CopyTo.text t1 ++ CopyTo.text t2).
Proof.
  split; [exact text_toText|].
  split; [reflexivity|].
  split.
  - intros tab tabs. rewrite !text_toText. unfold toText. simpl.
    now rewrite <- app_assoc.
  - intros t1 t2. rewrite !text_toText. apply toText_app.
Qed.

(* ===================================================================== *)
(** ** The matcher against the declarative reading *)
(* ===================================================================== *)

Section Matcher.
Variable ic : bool.

Lemma take_consumed (w s' : jsstring) : take (length (w ++ s') - length s') (w ++ s') = w.
Proof.
  rewrite length_app. replace (length w + length s' - length s') with (length w) by lia.
  apply take_app_length.
Qed.

Lemma plus_loop_sound p s caps k res :
  plus_loop p s caps k = Some res ->
  exists w s', s = w ++ s' /\ w <> [] /\ forallb p w = true /\ k s' caps = Some res.
Proof.
  revert res. induction s as [|c s IH]; simpl; intros res H; [discriminate|].
  destruct (p c) eqn:Hp; [|discriminate].
  destruct (plus_loop p s caps k) as [r|] eqn:E.
  - destruct (IH r eq_refl) as (w & s' & -> & _ & Hall & Hk).
    exists (c :: w), s'. simpl. rewrite Hp, Hall.
    repeat split; [discriminate|congruence].
  - exists [c], s. simpl. rewrite Hp. repeat split; [discriminate|assumption].
Qed.

Lemma plus_loop_complete p w s' caps k res :
  w <> [] -> forallb p w = true -> k s' caps = Some res ->
  exists res', plus_loop p (w ++ s') caps k = Some res'.
Proof.
  induction w as [|c w IH]; [congruence|].
  intros _ Hall Hk. simpl in *. apply andb_prop in Hall as [Hc Hall].
  rewrite Hc. destruct w as [|c' w].
  - simpl. destruct (plus_loop p s' caps k); eauto.
  - destruct IH as [r Hr]; [discriminate|assumption|assumption|].
    rewrite Hr. eauto.
Qed.

Lemma m_sound r : forall s caps k res,
  m ic r s caps k = Some res ->
  exists w s' cd, s = w ++ s' /\ matches ic r w cd /\ k s' (caps ++ cd) = Some res.
Proof.
  induction r as [|a|r1 IH1 r2 IH2|r1 IH1 r2 IH2|r1 IH1|a|r1 IH1];
    intros s caps k res H; simpl in H.
  - exists [], s, []. rewrite app_nil_r. repeat split; [constructor|assumption].
  - destruct s as [|c s]; [discriminate|].
    destruct (atom_matches ic a c) eqn:Ha; [|discriminate].
    exists [c], s, []. rewrite app_nil_r. repeat split; [now constructor|assumption].
  - apply IH1 in H as (w1 & s1 & c1 & -> & M1 & H).
    apply IH2 in H as (w2 & s2 & c2 & -> & M2 & H).
    exists (w1 ++ w2), s2, (c1 ++ c2).
    rewrite <- !app_assoc. rewrite <- app_assoc in H.
    repeat split; [now constructor|assumption].
  - destruct (m ic r1 s caps k) as [r|] eqn:E.
    + apply IH1 in E as (w & s' & cd & -> & M1 & Hk).
      exists w, s', cd. repeat split; [now apply M_alt_l|congruence].
    + apply IH2 in H as (w & s' & cd & -> & M2 & Hk).
      exists w, s', cd. repeat split; [now apply M_alt_r|assumption].
  - destruct (m ic r1 s caps k) as [r|] eqn:E.
    + apply IH1 in E as (w & s' & cd & -> & M1 & Hk).
      exists w, s', cd. repeat split; [now apply M_opt_some|congruence].
    + exists [], s, []. rewrite app_nil_r. repeat split; [apply M_opt_none|assumption].
  - apply plus_loop_sound in H as (w & s' & -> & Hne & Hall & Hk).
    exists w, s', []. rewrite app_nil_r. repeat split; [now constructor|assumption].
  - apply IH1 in H as (w & s' & cd & -> & M1 & Hk).
    rewrite take_consumed in Hk.
    exists w, s', (cd ++ [w]). rewrite app_assoc.
    repeat split; [now constructor|assumption].
Qed.

Lemma m_complete r w cd :
  matches ic r w cd ->
  forall s' caps k res, k s' (caps ++ cd) = Some res ->
  exists res', m ic r (w ++ s') caps k = Some res'.
Proof.
  induction 1 as [|a c Ha|r1 r2 w1 w2 c1 c2 M1 IH1 M2 IH2|r1 r2 w c M1 IH1
                  |r1 r2 w c M2 IH2|r w c M1 IH1|r|a w Hne Hall|r w c M1 IH1];
    intros s' caps k res Hk; simpl.
  - rewrite app_nil_r in Hk. eauto.
  - rewrite Ha. rewrite app_nil_r in Hk. eauto.
  - rewrite app_assoc in Hk.
    destruct (IH2 s' (caps ++ c1) k res Hk) as [res2 H2].
    rewrite <- app_assoc.
    apply (IH1 (w2 ++ s') caps (fun s1 caps1 => m ic r2 s1 caps1 k) res2 H2).
  - destruct (IH1 s' caps k res Hk) as [r H]. rewrite H. eauto.
  - destruct (m ic r1 (w ++ s') caps k); eauto.
  - destruct (IH1 s' caps k res Hk) as [r' H]. rewrite H. eauto.
  - destruct (m ic r s' caps k); [eauto|].
    rewrite app_nil_r in Hk. eauto.
  - rewrite app_nil_r in Hk. eapply plus_loop_complete; eauto.
  - apply (IH1 s' caps
             (fun s0 caps' => k s0 (caps' ++ [take (length (w ++ s') - length s0) (w ++ s')]))
             res).
    rewrite take_consumed, <- app_assoc. assumption.
Qed.

Lemma match_here_sound r s w caps :
  match_here ic r s = Some (w, caps) ->
  exists s', s = w ++ s' /\ matches ic r w caps.
Proof.
  unfold match_here. intros H.
  destruct (m ic r s [] (fun s' caps0 => Some (s', caps0))) as [[s' caps']|] eqn:E;
    [|discriminate].
  apply m_sound in E as (w0 & s0 & cd & -> & M & Hk).
  simpl in Hk. injection Hk as <- <-.
  rewrite take_consumed in H. injection H as <- <-. eauto.
Qed.

Lemma match_here_complete r w caps s' :
  matches ic r w caps -> exists res, match_here ic r (w ++ s') = Some res.
Proof.
  intros M. unfold match_here.
  destruct (m_complete r w caps M s' []
              (fun s0 caps0 => Some (s0, caps0))
              (s', caps) eq_refl)
    as [[s1 c1] H].
  rewrite H. eauto.
Qed.

Lemma exec_sound r s w caps :
  exec ic r s = Some (w, caps) ->
  exists pre post, s = pre ++ w ++ post /\ matches ic r w caps.
Proof.
  induction s as [|c s IH]; simpl; intros H.
  - destruct (match_here ic r []) as [res|] eqn:E; [|discriminate].
    injection H as ->. apply match_here_sound in E as (s' & E & M).
    exists [], s'. eauto.
  - destruct (match_here ic r (c :: s)) as [res|] eqn:E.
    + injection H as ->. apply match_here_sound in E as (s' & E & M).
      exists [], s'. eauto.
    + destruct (IH H) as (pre & post & -> & M). exists (c :: pre), post. eauto.
Qed.

Lemma exec_complete r pre w post caps :
  matches ic r w caps -> exists res, exec ic r (pre ++ w ++ post) = Some res.
Proof.
  intros M. induction pre as [|c pre IH].
  - destruct (match_here_complete r w caps post M) as [res H].
    simpl. destruct (w ++ post); simpl; rewrite H; eauto.
  - simpl. destruct (match_here ic r (c :: pre ++ w ++ post)); eauto.
Qed.

(** [exec] fails exactly on the strings none of whose substrings is a word
    of the pattern. *)
Lemma exec_None_iff r s :
  exec ic r s = None <->
  forall pre w post caps, s = pre ++ w ++ post -> ~ matches ic r w caps.
Proof.
  split.
  - intros H pre w post caps -> M.
    destruct (exec_complete r pre w post caps M) as [res E]. congruence.
  - intros H. destruct (exec ic r s) as [[w caps]|] eqn:E; [|reflexivity].
    apply exec_sound in E as (pre & post & E & M). exfalso. eapply H; eauto.
Qed.

(** [exec] finds the leftmost match: no word of the pattern starts before
    the one it returns. *)
Lemma exec_leftmost r s w caps :
  exec ic r s = Some (w, caps) ->
  exists pre post,
    s = pre ++ w ++ post /\ matches ic r w caps
    /\ forall pre' w' post' caps',
         s = pre' ++ w' ++ post' -> matches ic r w' caps' -> length pre <= length pre'.
Proof.
  induction s as [|c s IH]; simpl; intros H.
  - destruct (match_here ic r []) as [res|] eqn:E; [|discriminate].
    injection H as ->. apply match_here_sound in E as (s' & E & M).
    exists [], s'. repeat split; auto. intros; simpl; lia.
  - destruct (match_here ic r (c :: s)) as [res|] eqn:E.
    + injection H as ->. apply match_here_sound in E as (s' & E' & M).
      exists [], s'. repeat split; auto. intros; simpl; lia.
    + destruct (IH H) as (pre & post & -> & M & L). exists (c :: pre), post.
      repeat split; auto.
      intros [|c' pre'] w' post' caps' E' M'.
      * simpl in E'.
        destruct (match_here_complete r w' caps' post' M') as [res Hres].
        rewrite <- E' in Hres. congruence.
      * simpl in E'. injection E' as -> E'. simpl. apply le_n_S. eapply L; eauto.
Qed.

End Matcher.

(* ===================================================================== *)
(** ** The global scan *)
(* ===================================================================== *)

Section Scan.
Variable ic : bool.
Variable r : regex.
(** The pattern matches no empty word. *)
Hypothesis r_nonempty : forall w caps, matches ic r w caps -> w <> [].

Lemma match_here_nil : match_here ic r [] = None.
Proof using r_nonempty.
  destruct (match_here ic r []) as [[w caps]|] eqn:E; [|reflexivity].
  apply match_here_sound in E as (s' & E & M).
  symmetry in E. apply app_eq_nil in E as [-> _]. now apply r_nonempty in M.
Qed.

Lemma tiles_extend c s ws :
  match_here ic r (c :: s) = None -> tiles ic r s ws -> tiles ic r (c :: s) ws.
Proof.
  intros Hc T. inversion T as [gap Hgap|gap w caps rest ws' Hgap Hw Hrest]; subst.
  - constructor. intros [|c' g1] g2 E; simpl in E.
    + now subst g2.
    + injection E as _ E. eauto.
  - change (c :: gap ++ w ++ rest) with ((c :: gap) ++ w ++ rest).
    econstructor; eauto.
    intros [|c' g1] g2 E Hne; simpl in E.
    + now subst g2.
    + injection E as _ E. eauto.
Qed.

Lemma scan_tiles s : forall skip, tiles ic r (drop skip s) (scan ic r skip s).
Proof using r_nonempty.
  induction s as [|c s IH]; intros skip.
  - assert (T : tiles ic r [] []).
    { constructor. intros g1 g2 E. symmetry in E. apply app_eq_nil in E as [_ ->].
      apply match_here_nil. }
    destruct skip; simpl; [rewrite match_here_nil|]; exact T.
  - destruct skip as [|n]; [|exact (IH n)].
    simpl. destruct (match_here ic r (c :: s)) as [[w caps]|] eqn:E.
    + pose proof E as E'. apply match_here_sound in E' as (rest & Hs & M).
      destruct w as [|c' w]; [now apply r_nonempty in M|].
      simpl in Hs. injection Hs as <- ->. simpl.
      rewrite Nat.sub_0_r.
      specialize (IH (length w)). rewrite drop_app_length in IH.
      change (c :: w ++ rest) with ([] ++ (c :: w) ++ rest).
      econstructor; eauto.
      intros g1 g2 Hg Hne. symmetry in Hg. apply app_eq_nil in Hg as [_ ->]. congruence.
    + apply tiles_extend; [assumption|]. exact (IH 0).
Qed.

Lemma tiles_words s ws :
  tiles ic r s ws -> Forall (fun w => exists caps, matches ic r w caps) ws.
Proof.
  induction 1 as [|gap w caps rest ws Hgap Hw T IH]; constructor; [|assumption].
  apply match_here_sound in Hw as (s' & _ & M). eauto.
Qed.

End Scan.

(* ===================================================================== *)
(** ** The two patterns *)
(* ===================================================================== *)

(** Turns comparisons of code units into arithmetic. *)
Ltac code_units :=
  repeat match goal with
    | H : _ && _ = true |- _ => apply andb_prop in H as [? ?]
    | H : _ || _ = true |- _ => apply orb_prop in H as [?|?]
    | H : _ && _ = false |- _ => apply andb_false_iff in H as [?|?]
    | H : _ || _ = false |- _ => apply orb_false_elim in H as [? ?]
    | H : negb _ = true |- _ => apply negb_true_iff in H
    | H : negb _ = false |- _ => apply negb_false_iff in H
    | H : (_ =? _)%N = true |- _ => apply N.eqb_eq in H
    | H : (_ =? _)%N = false |- _ => apply N.eqb_neq in H
    | H : (_ <=? _)%N = true |- _ => apply N.leb_le in H
    | H : (_ <=? _)%N = false |- _ => apply N.leb_gt in H
    | H : true = false |- _ => discriminate H
    | H : false = true |- _ => discriminate H
    end.

Lemma swap_case_cases c :
  ((97 <= c <= 122 /\ swap_case c = c - 32)
   \/ (65 <= c <= 90 /\ swap_case c = c + 32)
   \/ ((c < 65 \/ 90 < c < 97 \/ 122 < c) /\ swap_case c = c))%N.
Proof.
  unfold swap_case.
  destruct ((97 <=? c) && (c <=? 122))%N eqn:E1;
    [|destruct ((65 <=? c) && (c <=? 90))%N eqn:E2]; code_units; lia.
Qed.

(** A pattern character that is no letter matches itself only. *)
Lemma char_eq_other p c :
  (p < 65 \/ 90 < p < 97 \/ 122 < p)%N -> char_eq true p c = true -> c = p.
Proof.
  unfold char_eq. intros Hp H. simpl in H.
  destruct (swap_case_cases c) as [[? E]|[[? E]|[? E]]]; rewrite E in H; code_units; lia.
Qed.

Lemma char_eq_refl ic c : char_eq ic c c = true.
Proof. unfold char_eq. now rewrite N.eqb_refl. Qed.

Lemma not_class_iff p c :
  (p < 65 \/ 90 < p < 97 \/ 122 < p)%N ->
  atom_matches true (AClass true [CChar p]) c = true <-> c <> p.
Proof.
  intros Hp. simpl. rewrite orb_false_r. split.
  - intros H ->. now rewrite char_eq_refl in H.
  - intros H. destruct (char_eq true p c) eqn:E; [|reflexivity].
    apply char_eq_other in E; [contradiction|assumption].
Qed.

Lemma url_chars_url_char c : atom_matches true url_chars c = url_char c.
Proof.
  unfold url_chars, url_char, atom_matches, in_item, char_eq, existsb.
  rewrite !andb_true_l, !orb_false_r, xorb_false_l.
  destruct (swap_case_cases c) as [[? E]|[[? E]|[? E]]]; rewrite E;
    repeat match goal with
      | |- context [(?a =? ?b)%N] => destruct (N.eqb_spec a b); try lia
      | |- context [(?a <=? ?b)%N] => destruct (N.leb_spec a b); try lia
      end; reflexivity.
Qed.

Lemma matches_RStr ic p : forall w caps,
  matches ic (RStr p) w caps ->
  caps = [] /\ Forall2 (fun pc c => char_eq ic pc c = true) p w.
Proof.
  induction p as [|pc p IH]; intros w caps H.
  - inv H. split; constructor.
  - destruct p as [|pc' p].
    + inv H. split; [reflexivity|]. repeat constructor. assumption.
    + change (RStr (pc :: pc' :: p)) with (RSeq (RAtom (AChar pc)) (RStr (pc' :: p))) in H.
      inversion H as [| |r1 r2 w1 w2 c1 c2 Hhd Htl| | | | | |]; subst; clear H.
      inv Hhd. apply (IH w2 c2) in Htl as [-> F].
      split; [reflexivity|]. constructor; assumption.
Qed.

Lemma RStr_matches ic p w :
  Forall2 (fun pc c => char_eq ic pc c = true) p w -> matches ic (RStr p) w [].
Proof.
  induction 1 as [|pc c p w Hc F IH].
  - constructor.
  - destruct p as [|pc' p].
    + inv F. now constructor.
    + change (RStr (pc :: pc' :: p)) with (RSeq (RAtom (AChar pc)) (RStr (pc' :: p))).
      change (c :: w) with ([c] ++ w). change (@nil jsstring) with (@nil jsstring ++ []).
      constructor; [now constructor|assumption].
Qed.

Lemma matches_plus ic a w caps :
  matches ic (RPlus a) w caps <->
  caps = [] /\ w <> [] /\ forallb (atom_matches ic a) w = true.
Proof.
  split.
  - intros H. inv H. auto.
  - intros (-> & ? & ?). now constructor.
Qed.

Lemma ci_equal_app p1 p2 w1 w2 :
  ci_equal p1 w1 -> ci_equal p2 w2 -> ci_equal (p1 ++ p2) (w1 ++ w2).
Proof. apply Forall2_app. Qed.

Lemma matches_seq ic r1 r2 w caps :
  matches ic (RSeq r1 r2) w caps ->
  exists w1 w2 c1 c2,
    w = w1 ++ w2 /\ caps = c1 ++ c2 /\ matches ic r1 w1 c1 /\ matches ic r2 w2 c2.
Proof. intros H. inversion H; subst. eauto 10. Qed.

Lemma matches_atom ic a w caps :
  matches ic (RAtom a) w caps -> exists c, w = [c] /\ caps = [] /\ atom_matches ic a c = true.
Proof. intros H. inversion H; subst. eauto. Qed.

Lemma matches_alt ic r1 r2 w caps :
  matches ic (RAlt r1 r2) w caps -> matches ic r1 w caps \/ matches ic r2 w caps.
Proof. intros H. inversion H; subst; auto. Qed.

Lemma matches_opt ic r w caps :
  matches ic (ROpt r) w caps -> matches ic r w caps \/ (w = [] /\ caps = []).
Proof. intros H. inversion H; subst; auto. Qed.

Lemma matches_group ic r w caps :
  matches ic (RGroup r) w caps -> exists c, caps = c ++ [w] /\ matches ic r w c.
Proof. intros H. inversion H; subst. eauto. Qed.

Lemma anchor_pattern_sound w caps :
  matches true anchor_pattern w caps -> exists u, caps = [u] /\ is_anchor w u.
Proof.
  unfold anchor_pattern. intros H.
  apply matches_seq in H as (a & w1 & c0 & c1 & -> & -> & Ha & H).
  apply matches_seq in H as (mid & w2 & c2 & c3 & -> & -> & Hmid & H).
  apply matches_seq in H as (h & w3 & c4 & c5 & -> & -> & Hh & H).
  apply matches_seq in H as (q1 & w4 & c6 & c7 & -> & -> & Hq1 & H).
  apply matches_seq in H as (u & q2 & c8 & c9 & -> & -> & Hu & Hq2).
  apply matches_RStr in Ha as [-> Ha].
  apply matches_plus in Hmid as (-> & Hmid_ne & Hmid).
  apply matches_RStr in Hh as [-> Hh].
  apply matches_atom in Hq1 as (x1 & -> & -> & Hx1).
  apply matches_group in Hu as (c & -> & Hu).
  apply matches_plus in Hu as (-> & Hu_ne & Hu).
  apply matches_atom in Hq2 as (x2 & -> & -> & Hx2).
  simpl in Hx1, Hx2.
  apply char_eq_other in Hx1; [|unfold DQUOTE; lia].
  apply char_eq_other in Hx2; [|unfold DQUOTE; lia].
  subst x1 x2. exists u. split; [reflexivity|].
  exists a, mid, h. repeat split; try assumption.
  - rewrite forallb_forall in Hmid. apply Forall_forall. intros c Hc.
    apply list_elem_of_In, Hmid, not_class_iff in Hc; [assumption|lia].
  - rewrite forallb_forall in Hu. apply Forall_forall. intros c Hc.
    apply list_elem_of_In, Hu, not_class_iff in Hc; [assumption|unfold DQUOTE; lia].
Qed.

Lemma anchor_pattern_complete w u :
  is_anchor w u -> matches true anchor_pattern w [u].
Proof.
  intros (a & mid & h & -> & Ha & Hmid_ne & Hmid & Hh & Hu_ne & Hu).
  unfold anchor_pattern.
  change [u] with ([] ++ [] ++ [] ++ [] ++ ([] ++ [u]) ++ []).
  constructor; [now apply RStr_matches|].
  constructor.
  { constructor; [assumption|]. apply forallb_forall. intros c Hc.
    apply not_class_iff; [lia|]. rewrite Forall_forall in Hmid.
    now apply Hmid, list_elem_of_In. }
  constructor; [now apply RStr_matches|].
  constructor; [constructor; apply char_eq_refl|].
  constructor; [|constructor; apply char_eq_refl].
  constructor. constructor; [assumption|]. apply forallb_forall. intros c Hc.
  apply not_class_iff; [unfold DQUOTE; lia|]. rewrite Forall_forall in Hu.
  now apply Hu, list_elem_of_In.
Qed.

(** A segment holds an anchor exactly when the search for the anchor
    pattern succeeds, and what the search captures is the [href] of an
    anchor of the segment. *)
Lemma exec_anchor_None seg :
  exec true anchor_pattern seg = None <-> ~ contains_anchor seg.
Proof.
  rewrite exec_None_iff. split.
  - intros H (pre & w & u & post & E & A).
    exact (H pre w post [u] E (anchor_pattern_complete w u A)).
  - intros H pre w post caps E M.
    apply anchor_pattern_sound in M as (u & _ & A).
    apply H. exists pre, w, u, post. auto.
Qed.

Lemma exec_anchor_Some seg w caps :
  exec true anchor_pattern seg = Some (w, caps) ->
  exists u pre post, caps = [u] /\ seg = pre ++ w ++ post /\ is_anchor w u.
Proof.
  intros H. apply exec_sound in H as (pre & post & E & M).
  apply anchor_pattern_sound in M as (u & -> & A). eauto 10.
Qed.

Lemma ci_equal_other p w :
  Forall (fun c => c < 65 \/ 90 < c < 97 \/ 122 < c)%N p -> ci_equal p w -> w = p.
Proof.
  intros Hp H. induction H as [|pc c p w Hc F IH]; [reflexivity|].
  inv Hp. f_equal; [eapply char_eq_other; eauto|auto].
Qed.

Lemma url_scheme_sound w caps :
  matches true url_scheme w caps ->
  caps = []
  /\ (ci_equal (lit "http") w \/ ci_equal (lit "https") w
      \/ ci_equal (lit "ftp") w \/ ci_equal (lit "ssh") w
      \/ ci_equal (lit "mailto") w).
Proof.
  unfold url_scheme. intros H.
  apply matches_alt in H as [H|H].
  - apply matches_seq in H as (w1 & w2 & c1 & c2 & -> & -> & H1 & H2).
    apply matches_RStr in H1 as [-> H1].
    apply matches_opt in H2 as [H2|[-> ->]].
    + apply matches_atom in H2 as (c & -> & -> & Hc).
      split; [reflexivity|]. right. left.
      change (lit "https") with (lit "http" ++ [115%N]).
      apply ci_equal_app; [assumption|]. repeat constructor. assumption.
    + split; [reflexivity|]. rewrite app_nil_r. left. exact H1.
  - apply matches_alt in H as [H|H];
      [apply matches_RStr in H as [-> H]; split; [reflexivity|]; right; right; left; exact H|].
    apply matches_alt in H as [H|H]; apply matches_RStr in H as [-> H];
      (split; [reflexivity|]); [do 3 right; left; exact H|do 4 right; exact H].
Qed.

Lemma url_pattern_sound w caps : matches true url_pattern w caps -> is_url w.
Proof.
  unfold url_pattern. intros H.
  apply matches_seq in H as (scheme & w1 & c1 & c2 & -> & -> & Hs & H).
  apply matches_seq in H as (sep & body & c3 & c4 & -> & -> & Hsep & Hb).
  apply matches_group in Hs as (c & -> & Hs).
  apply url_scheme_sound in Hs as [-> Hs].
  apply matches_RStr in Hsep as [-> Hsep].
  apply matches_plus in Hb as (-> & Hne & Hb).
  apply ci_equal_other in Hsep; [|repeat constructor; lia]. subst sep.
  exists scheme, body. repeat split; try assumption.
  apply forallb_forall. intros c Hc. rewrite <- url_chars_url_char.
  rewrite forallb_forall in Hb. now apply Hb.
Qed.

Lemma is_url_nonempty w : is_url w -> w <> [].
Proof.
  intros (scheme & body & -> & _ & Hne & _) E.
  apply app_eq_nil in E as [_ E]. apply app_eq_nil in E as [E _]. discriminate.
Qed.

Lemma url_pattern_nonempty w caps : matches true url_pattern w caps -> w <> [].
Proof. intros H. eapply is_url_nonempty, url_pattern_sound, H. Qed.

(* ===================================================================== *)
(** ** The URL extractor *)
(* ===================================================================== *)

Lemma trim_start_id s :
  match s with c :: _ => is_white_space c = false | [] => True end -> trim_start s = s.
Proof. destruct s as [|c s]; simpl; [reflexivity|]. now intros ->. Qed.

Lemma str_trim_plain s :
  forallb (fun c => negb (is_white_space c)) s = true -> str_trim s = s.
Proof.
  intros H. unfold str_trim, trim_end.
  assert (H1 : trim_start s = s).
  { apply trim_start_id. destruct s as [|c s]; [exact I|]. simpl in H.
    apply andb_prop in H as [H _]. now apply negb_true_iff. }
  assert (H2 : trim_start (rev s) = rev s).
  { apply trim_start_id. pose proof (in_rev s) as Hin.
    destruct (rev s) as [|c t]; [exact I|].
    rewrite forallb_forall in H. apply negb_true_iff, H, Hin. now left. }
  rewrite H1, H2. apply rev_involutive.
Qed.

Lemma trim_Some s : trim (Some s) = str_trim s.
Proof. destruct s; reflexivity. Qed.

Lemma insert_middle {A} (pre : list A) (x y : A) (rest : list A) :
  <[length pre := y]> (pre ++ x :: rest) = pre ++ y :: rest.
Proof.
  rewrite insert_app_r_alt by lia. now rewrite Nat.sub_diag.
Qed.

Lemma unwrap_step_middle pre val rest :
  Action.unwrap_step (pre ++ val :: rest) (length pre)
  = pre ++ str_trim (href_or_self val) :: rest.
Proof.
  unfold Action.unwrap_step, href_or_self.
  rewrite list_lookup_middle by reflexivity.
  destruct (exec true anchor_pattern val) as [[w [|u caps]]|]; simpl.
  - now rewrite list_lookup_middle, insert_middle, trim_Some.
  - destruct (truthy u) eqn:Hu.
    + rewrite insert_middle, list_lookup_middle by reflexivity.
      now rewrite insert_middle, trim_Some.
    + now rewrite list_lookup_middle, insert_middle, trim_Some.
  - now rewrite list_lookup_middle, insert_middle, trim_Some.
Qed.

Lemma unwrap_loop_from pre rest :
  fold_left Action.unwrap_step (seq (length pre) (length rest)) (pre ++ rest)
  = pre ++ map (fun seg => str_trim (href_or_self seg)) rest.
Proof.
  revert pre. induction rest as [|val rest IH]; intros pre; [reflexivity|].
  simpl. rewrite unwrap_step_middle.
  replace (pre ++ str_trim (href_or_self val) :: rest)
    with ((pre ++ [str_trim (href_or_self val)]) ++ rest) by now rewrite <- app_assoc.
  replace (S (length pre)) with (length (pre ++ [str_trim (href_or_self val)]))
    by (rewrite length_app; simpl; lia).
  rewrite IH. now rewrite <- app_assoc.
Qed.

Lemma unwrap_all_map urlList :
  Action.unwrap_all urlList = map (fun seg => str_trim (href_or_self seg)) urlList.
Proof. exact (unwrap_loop_from [] urlList). Qed.

Lemma extract_line_split text : Action.extract false text = extract_lines text.
Proof.
  unfold Action.extract, extract_lines, Action.conforming. simpl.
  now rewrite unwrap_all_map.
Qed.

Lemma href_or_self_no_anchor seg : ~ contains_anchor seg -> href_or_self seg = seg.
Proof.
  intros H. apply exec_anchor_None in H. unfold href_or_self. now rewrite H.
Qed.

Lemma map_id_on {A} (f : A -> A) (l : list A) :
  Forall (fun x => f x = x) l -> map f l = l.
Proof. induction 1; simpl; congruence. Qed.

(** A segment that holds an anchor becomes the [href] of an anchor of the
    segment, the one the search finds: none starts further left. *)
Lemma href_of_anchor seg :
  contains_anchor seg ->
  exists pre w post,
    seg = pre ++ w ++ post /\ is_anchor w (href_or_self seg)
    /\ forall pre' w' u' post',
         seg = pre' ++ w' ++ post' -> is_anchor w' u' -> length pre <= length pre'.
Proof.
  intros Hc. unfold href_or_self.
  destruct (exec true anchor_pattern seg) as [[w caps]|] eqn:E.
  - apply exec_leftmost in E as (pre & post & -> & M & L).
    apply anchor_pattern_sound in M as (u & -> & A).
    assert (Hu : truthy u = true).
    { destruct A as (? & ? & ? & _ & _ & _ & _ & _ & Hne & _). now destruct u. }
    rewrite Hu. exists pre, w, post. repeat split; auto.
    intros pre' w' u' post' E' A'.
    exact (L pre' w' post' [u'] E' (anchor_pattern_complete w' u' A')).
  - apply exec_anchor_None in E. contradiction.
Qed.

(** C5. In line-split mode the extraction is: split on line feeds, replace
    a segment that holds an anchor by the captured [href], trim, drop what
    is empty, order and duplicates kept.  A segment that holds an anchor,
    that is the letters of [<a], one or more characters other than [>], the
    letters of [href=] and a non-empty URL free of double quotes between
    double quotes, is replaced by the [href] of the leftmost anchor in it;
    a segment is changed by this step only if it holds an anchor; and on a
    text none of whose lines holds an anchor the result is the non-empty
    trimmed lines in order. *)
Theorem line_split_extraction :
  (forall text,
      Action.extract false text
      = List.filter truthy
          (map (fun seg => str_trim (href_or_self seg)) (split_lf text)))
  /\ (forall seg, contains_anchor seg ->
        exists pre w post,
          seg = pre ++ w ++ post /\ is_anchor w (href_or_self seg)
          /\ forall pre' w' u' post',
               seg = pre' ++ w' ++ post' -> is_anchor w' u' ->
               length pre <= length pre')
  /\ (forall seg, href_or_self seg <> seg ->
        exists pre w post,
          seg = pre ++ w ++ post /\ is_anchor w (href_or_self seg))
  /\ (forall seg, ~ contains_anchor seg -> href_or_self seg = seg)
  /\ (forall text,
        Forall (fun seg => ~ contains_anchor seg) (split_lf text) ->
        Action.extract false text
        = List.filter truthy (map str_trim (split_lf text))).
Proof.
  split; [exact extract_line_split|].
  split; [exact href_of_anchor|].
  split; [|split; [exact href_or_self_no_anchor|]].
  - intros seg H. unfold href_or_self in *.
    destruct (exec true anchor_pattern seg) as [[w caps]|] eqn:E; [|congruence].
    apply exec_anchor_Some in E as (u & pre & post & -> & E & A).
    destruct (truthy u); [|congruence]. eauto.
  - intros text H. rewrite extract_line_split. unfold extract_lines.
    f_equal. apply map_ext_Forall.
    eapply Forall_impl; [exact H|]. intros seg Hseg. simpl.
    now rewrite href_or_self_no_anchor.
Qed.

Lemma url_char_plain c :
  url_char c = true -> c <> 60%N /\ is_white_space c = false.
Proof.
  intros H. split.
  - intros ->. discriminate H.
  - destruct (is_white_space c) eqn:W; [exfalso|reflexivity].
    unfold is_white_space in W. unfold url_char, existsb in H.
    code_units; lia.
Qed.

Lemma char_eq_letter p c :
  (97 <= p <= 122)%N -> char_eq true p c = true -> url_char c = true.
Proof.
  unfold char_eq, url_char. simpl. intros Hp H.
  destruct (swap_case_cases c) as [[? E]|[[? E]|[? E]]]; rewrite E in H; code_units;
    repeat match goal with
      | |- context [(?a <=? ?b)%N] => destruct (N.leb_spec a b); try lia
      end; reflexivity.
Qed.

Lemma ci_equal_letters p w :
  forallb (fun c => (97 <=? c) && (c <=? 122))%N p = true ->
  ci_equal p w -> forallb url_char w = true.
Proof.
  intros Hp H. induction H as [|pc c p w Hc F IH]; [reflexivity|].
  simpl in Hp. apply andb_prop in Hp as [Hpc Hp].
  simpl. rewrite (char_eq_letter pc c), IH; auto.
  code_units. lia.
Qed.

Lemma is_url_chars w : is_url w -> forallb url_char w = true.
Proof.
  intros (scheme & body & -> & Hs & _ & Hb).
  rewrite !forallb_app, Hb.
  replace (forallb url_char (lit "://")) with true by reflexivity.
  rewrite !andb_true_r.
  destruct Hs as [H|[H|[H|[H|H]]]];
    (eapply ci_equal_letters; [|exact H]); reflexivity.
Qed.

Lemma anchor_has_lt seg : contains_anchor seg -> In 60%N seg.
Proof.
  intros (pre & w & u & post & -> & a & mid & h & -> & Ha & _).
  inversion Ha as [|pc c p t Hc F]; subst.
  apply char_eq_other in Hc; [|lia]. subst c.
  apply in_or_app. right. apply in_or_app. left. now left.
Qed.

Lemma url_word_fixed w :
  is_url w -> str_trim (href_or_self w) = w /\ truthy w = true.
Proof.
  intros H. pose proof (is_url_chars w H) as Hc. rewrite forallb_forall in Hc.
  split.
  - rewrite href_or_self_no_anchor.
    + apply str_trim_plain, forallb_forall. intros c Hin.
      apply Hc, url_char_plain in Hin as [_ ->]. reflexivity.
    + intros A. apply anchor_has_lt, Hc, url_char_plain in A as [A _]. congruence.
  - apply is_url_nonempty in H. now destruct w.
Qed.

Lemma conforming_unwrap_urls ws :
  Forall is_url ws -> Action.conforming (Action.unwrap_all ws) = ws.
Proof.
  intros H. rewrite unwrap_all_map. unfold Action.conforming.
  rewrite (map_id_on _ ws).
  - induction H as [|w ws Hw _ IH]; [reflexivity|].
    simpl. apply url_word_fixed in Hw as [_ ->]. now rewrite IH.
  - eapply Forall_impl; [exact H|]. intros w Hw. now apply url_word_fixed.
Qed.

Lemma scan_urls text : Forall is_url (scan true url_pattern 0 text).
Proof.
  pose proof (scan_tiles true url_pattern url_pattern_nonempty text 0) as T.
  apply tiles_words in T. eapply Forall_impl; [exact T|].
  intros w [caps M]. eapply url_pattern_sound, M.
Qed.

Lemma extract_regex text : Action.extract true text = scan true url_pattern 0 text.
Proof.
  unfold Action.extract, Action.split_or_match, match_global.
  pose proof (scan_urls text) as H.
  destruct (scan true url_pattern 0 text) as [|w ws]; [reflexivity|].
  now apply conforming_unwrap_urls.
Qed.

Lemma plus_loop_greedy p (s : jsstring) caps s' caps' :
  plus_loop p s caps (fun s0 c0 => Some (s0, c0)) = Some (s', caps') ->
  match s' with x :: _ => p x = false | [] => True end.
Proof.
  induction s as [|c s IH]; simpl; [discriminate|].
  destruct (p c); [|discriminate].
  destruct (plus_loop p s caps (fun s0 c0 => Some (s0, c0))) as [r|] eqn:E.
  - intros [= ->]. now apply IH.
  - intros [= <- <-]. destruct s as [|x s]; [exact I|].
    simpl in E. destruct (p x); [|reflexivity].
    destruct (plus_loop p s caps _); discriminate.
Qed.

Lemma url_match_maximal (s w : jsstring) caps :
  match_here true url_pattern s = Some (w, caps) ->
  exists s', s = w ++ s' /\ is_url w
             /\ match s' with x :: _ => url_char x = false | [] => True end.
Proof.
  unfold match_here.
  destruct (m true url_pattern s [] (fun s' caps0 => Some (s', caps0)))
    as [[rest caps']|] eqn:E; [|discriminate].
  intros H. pose proof E as E2.
  apply m_sound in E as (w0 & s0 & cd & -> & M & Hk).
  injection Hk as <- <-. rewrite take_consumed in H. injection H as <- <-.
  exists s0. split; [reflexivity|].
  split; [eapply url_pattern_sound, M|].
  change (m true url_pattern (w0 ++ s0) [] (fun s1 c1 => Some (s1, c1)))
    with (m true (RGroup url_scheme) (w0 ++ s0) []
            (fun s1 c1 => m true (RStr (lit "://")) s1 c1
               (fun s2 c2 => plus_loop (atom_matches true url_chars) s2 c2
                               (fun s3 c3 => Some (s3, c3))))) in E2.
  apply m_sound in E2 as (w1 & s1 & cd1 & _ & _ & E2).
  apply m_sound in E2 as (w2 & s2 & cd2 & _ & _ & E2).
  apply plus_loop_greedy in E2.
  destruct s0 as [|x s0]; [exact I|]. now rewrite <- url_chars_url_char.
Qed.

Lemma same_run (p : N -> bool) (w : jsstring) : forall (u s' rest : jsstring),
  w ++ s' = u ++ rest ->
  forallb p w = true -> forallb p u = true ->
  match s' with x :: _ => p x = false | [] => True end ->
  match rest with x :: _ => p x = false | [] => True end ->
  w = u.
Proof.
  induction w as [|c w IH]; intros [|c' u] s' rest E Hw Hu Hs Hr; simpl in *.
  - reflexivity.
  - subst s'. apply andb_prop in Hu as [Hu _]. congruence.
  - subst rest. apply andb_prop in Hw as [Hw _]. congruence.
  - injection E as -> E. apply andb_prop in Hw as [_ Hw].
    apply andb_prop in Hu as [_ Hu]. f_equal. eapply IH; eauto.
Qed.

Lemma url_pattern_complete (u : jsstring) :
  is_url u -> exists caps, matches true url_pattern u caps.
Proof.
  intros (scheme & body & -> & Hs & Hne & Hb).
  assert (S : matches true url_scheme scheme []).
  { unfold url_scheme. destruct Hs as [H|[H|[H|[H|H]]]].
    - apply M_alt_l. rewrite <- (app_nil_r scheme).
      change (@nil (list N)) with (@nil (list N) ++ []).
      constructor; [now apply RStr_matches|apply M_opt_none].
    - apply M_alt_l.
      change (lit "https") with (lit "http" ++ [115%N]) in H.
      apply Forall2_app_inv_l in H as (w1 & w2 & H1 & H2 & ->).
      change (@nil (list N)) with (@nil (list N) ++ []).
      constructor; [now apply RStr_matches|].
      inversion H2 as [|? c ? ? Hc Hnil]; subst. inversion Hnil; subst.
      apply M_opt_some. now constructor.
    - apply M_alt_r, M_alt_l. now apply RStr_matches.
    - apply M_alt_r, M_alt_r, M_alt_l. now apply RStr_matches.
    - apply M_alt_r, M_alt_r, M_alt_r. now apply RStr_matches. }
  exists (([] ++ [scheme]) ++ [] ++ []). unfold url_pattern.
  constructor; [now constructor|].
  constructor.
  - apply RStr_matches. repeat constructor.
  - constructor; [assumption|].
    apply forallb_forall. intros c Hc. rewrite url_chars_url_char.
    rewrite forallb_forall in Hb. now apply Hb.
Qed.

Lemma match_here_url (u rest : jsstring) :
  is_url u ->
  match rest with x :: _ => url_char x = false | [] => True end ->
  exists caps, match_here true url_pattern (u ++ rest) = Some (u, caps).
Proof.
  intros Hu Hrest.
  destruct (url_pattern_complete u Hu) as [caps0 M].
  destruct (match_here_complete true url_pattern u caps0 rest M) as [[w caps] E].
  exists caps. rewrite E. f_equal. f_equal.
  apply url_match_maximal in E as (s' & E & Hw & Hs').
  symmetry in E.
  eapply (same_run url_char); eauto using is_url_chars.
Qed.

Lemma match_here_not_url_start x (s : jsstring) :
  url_char x = false -> match_here true url_pattern (x :: s) = None.
Proof.
  intros Hx. destruct (match_here true url_pattern (x :: s)) as [[w caps]|] eqn:E;
    [|reflexivity].
  apply url_match_maximal in E as (s' & E & Hw & _).
  pose proof (is_url_chars w Hw) as Hc. apply is_url_nonempty in Hw.
  destruct w as [|c w]; [congruence|]. simpl in *. injection E as <- _.
  apply andb_prop in Hc as [Hc _]. congruence.
Qed.

Lemma scan_skip ic r (p : jsstring) : forall s : jsstring,
  scan ic r (length p) (p ++ s) = scan ic r 0 s.
Proof. induction p as [|c p IH]; intros s; [reflexivity|]. simpl. apply IH. Qed.

Lemma scan_url_then (u rest : jsstring) :
  is_url u ->
  match rest with x :: _ => url_char x = false | [] => True end ->
  scan true url_pattern 0 (u ++ rest) = u :: scan true url_pattern 0 rest.
Proof.
  intros Hu Hrest. destruct (match_here_url u rest Hu Hrest) as [caps E].
  pose proof (is_url_nonempty u Hu) as Hne.
  destruct u as [|c u]; [congruence|].
  cbn [app scan]. cbn [app] in E. rewrite E. f_equal.
  replace (length (c :: u) - 1) with (length u) by (simpl; lia).
  apply scan_skip.
Qed.

Lemma scan_url_cut (v : jsstring) x (rest : jsstring) :
  is_url v -> url_char x = false ->
  scan true url_pattern 0 (v ++ x :: rest) = v :: scan true url_pattern 0 rest.
Proof.
  intros Hv Hx. rewrite scan_url_then by assumption. f_equal.
  cbn [scan]. now rewrite match_here_not_url_start.
Qed.

(** No URL starts where the pattern does not match, and conversely. *)
Lemma url_match_None_iff (s : jsstring) :
  match_here true url_pattern s = None
  <-> forall u rest, s = u ++ rest -> ~ is_url u.
Proof.
  split.
  - intros H u rest -> Hu.
    destruct (url_pattern_complete u Hu) as [caps M].
    destruct (match_here_complete true url_pattern u caps rest M) as [res E].
    congruence.
  - intros H. destruct (match_here true url_pattern s) as [[w caps]|] eqn:E;
      [|reflexivity].
    apply match_here_sound in E as (s' & E & M).
    exfalso. eapply H; [exact E|]. eapply url_pattern_sound, M.
Qed.

(** C6. In regex mode the extraction returns the matches of the URL
    pattern in the text from left to right, none overlapping another and
    none left out: the text is cut into the returned matches and the gaps
    around them, and the pattern matches at no position of a gap.  The
    pattern matches at a position exactly when a URL starts there, a URL
    being one of the schemes http, https, ftp, ssh, mailto in any case, then
    [://], then one or more permitted characters; what it matches there is
    the URL that runs up to the first character that is not permitted, or to
    the end of the text; and every such URL is matched.  So every returned
    string is a URL, and no URL of the text that starts in a gap is left
    out.  On the sample sentence the result is the two URLs, and the other
    schemes are found as well. *)
Theorem regex_extraction :
  (forall text, tiles true url_pattern text (Action.extract true text))
  /\ (forall text, Forall is_url (Action.extract true text))
  /\ (forall s,
        match_here true url_pattern s = None
        <-> forall u rest, s = u ++ rest -> ~ is_url u)
  /\ (forall s w caps,
        match_here true url_pattern s = Some (w, caps) ->
        exists rest,
          s = w ++ rest /\ is_url w
          /\ match rest with x :: _ => url_char x = false | [] => True end)
  /\ (forall u rest,
        is_url u ->
        match rest with x :: _ => url_char x = false | [] => True end ->
        exists caps, match_here true url_pattern (u ++ rest) = Some (u, caps))
  /\ Action.extract true (lit "visit http://a.test and https://b.test/path")
     = [lit "http://a.test"; lit "https://b.test/path"]
  /\ Action.extract true (lit "FTP://x.y/z ssh://h:22/p;mailto://a@b.c <Https://D.e>")
     = [lit "FTP://x.y/z"; lit "ssh://h:22/p"; lit "mailto://a@b.c"; lit "Https://D.e"].
Proof.
  split; [|split; [|split; [|split; [|split; [|split]]]]].
  - intros text. rewrite extract_regex.
    exact (scan_tiles true url_pattern url_pattern_nonempty text 0).
  - intros text. rewrite extract_regex. apply scan_urls.
  - exact url_match_None_iff.
  - exact url_match_maximal.
  - exact match_here_url.
  - vm_compute. reflexivity.
  - vm_compute. reflexivity.
Qed.

Lemma regex_extraction_witness :
  let u := lit "ssh://h:22/p" in
  let rest := lit ";mailto://a@b.c" in
  is_url u
  /\ url_char 59 = false
  /\ (exists caps, match_here true url_pattern (u ++ rest) = Some (u, caps))
  /\ match_here true url_pattern (lit "sh://h:22/p") = None
  /\ ~ is_url (lit "sh://h")
  /\ Action.extract true (u ++ rest) = [u; lit "mailto://a@b.c"].
Proof.
  intros u rest.
  destruct regex_extraction as (_ & _ & Hnone & Hsome & Hall & _).
  assert (Hu : is_url u).
  { destruct (Hsome u u [lit "ssh"] eq_refl) as (r & _ & H & _). exact H. }
  split; [exact Hu|]. split; [reflexivity|].
  split; [exact (Hall u rest Hu eq_refl)|].
  split; [reflexivity|].
  split; [|reflexivity].
  destruct (Hnone (lit "sh://h:22/p")) as [H _].
  exact (H eq_refl (lit "sh://h") (lit ":22/p") eq_refl).
Defined.

(* ===================================================================== *)
(** ** Formatting, then splitting or extracting *)
(* ===================================================================== *)

Lemma toText_last tabs : tabs <> [] -> last (toText tabs) = Some LF.
Proof.
  intros H. destruct (exists_last H) as (front & tab & ->).
  rewrite toText_app. unfold toText at 2. simpl. rewrite app_nil_r.
  now rewrite !app_assoc, last_snoc.
Qed.

Lemma split_toText tabs :
  Forall (fun tab => has_lf (url tab) = false) tabs ->
  split_lf (toText tabs) = map url tabs ++ [[]].
Proof.
  induction 1 as [|tab tabs Htab _ IH]; [reflexivity|].
  unfold toText in *. simpl. rewrite <- app_assoc. simpl.
  now rewrite split_lf_app_lf, IH.
Qed.

Lemma filter_truthy_fixed (f : jsstring -> jsstring) (l : list jsstring) :
  Forall (fun u => f u = u /\ u <> []) l -> List.filter truthy (map f l) = l.
Proof.
  induction 1 as [|u l [Hf Hu] _ IH]; [reflexivity|].
  simpl. rewrite Hf, IH. now destruct u.
Qed.

Lemma extract_toText tabs :
  Forall (fun tab => has_lf (url tab) = false /\ str_trim (url tab) = url tab
                     /\ url tab <> [] /\ ~ contains_anchor (url tab)) tabs ->
  Action.extract false (toText tabs) = map url tabs.
Proof.
  intros H. rewrite extract_line_split. unfold extract_lines.
  rewrite split_toText
    by (eapply Forall_impl; [exact H|]; intros tab (Hlf & _); exact Hlf).
  rewrite map_app, List.filter_app. simpl.
  replace (truthy (str_trim (href_or_self []))) with false by reflexivity.
  rewrite app_nil_r. apply filter_truthy_fixed.
  apply Forall_map. eapply Forall_impl; [exact H|].
  intros tab (_ & Htrim & Hne & Hanchor). simpl.
  now rewrite href_or_self_no_anchor.
Qed.

(** C4, as amended.  For every non-empty sequence of tabs, [CopyTo.text]
    ends with a line feed.  If no URL holds a line feed, splitting the text
    on line feeds gives the URLs in order and then one empty segment.  If
    moreover every URL is non-empty, has no white space at either end and
    holds no anchor, the line-split extraction of the text gives back the
    URLs in order. *)
Theorem text_then_split_or_extract (T : list Tab) :
  T <> [] ->
  last (CopyTo.text T) = Some LF
  /\ (Forall (fun tab => has_lf (url tab) = false) T ->
      split_lf (CopyTo.text T) = map url T ++ [[]])
  /\ (Forall (fun tab => has_lf (url tab) = false /\ str_trim (url tab) = url tab
                         /\ url tab <> [] /\ ~ contains_anchor (url tab)) T ->
      Action.extract false (CopyTo.text T) = map url T).
Proof.
  intros HT. rewrite text_toText.
  split; [now apply toText_last|].
  split; [apply split_toText|apply extract_toText].
Qed.

Lemma sample_url_no_anchor (u : jsstring) :
  exec true anchor_pattern u = None -> ~ contains_anchor u.
Proof. apply exec_anchor_None. Defined.

Lemma text_then_split_or_extract_witness :
  three_tabs <> []
  /\ last (CopyTo.text three_tabs) = Some LF
  /\ split_lf (CopyTo.text three_tabs) = map url three_tabs ++ [[]]
  /\ Action.extract false (CopyTo.text three_tabs) = map url three_tabs.
Proof.
  assert (Hne : three_tabs <> []) by discriminate.
  destruct (text_then_split_or_extract three_tabs Hne) as (H1 & H2 & H3).
  split; [exact Hne|]. split; [exact H1|]. split.
  - apply H2. repeat constructor.
  - apply H3.
    repeat (constructor;
            [split; [reflexivity|split; [reflexivity|split;
               [discriminate|apply sample_url_no_anchor; reflexivity]]]|]).
    constructor.
Defined.

(** C4 as stated fails on a URL that holds a line feed, which the split
    cuts in two, and the round trip through the extraction fails on a URL
    with white space at an end, non-empty after trimming and free of
    anchors, which comes back trimmed. *)
Lemma text_then_split_counterexample :
  let T1 := [tab_at 1 (lit "a" ++ [LF] ++ lit "b")] in
  let T2 := [tab_at 1 (32%N :: lit "a")] in
  (T1 <> [] /\ split_lf (CopyTo.text T1) <> map url T1 ++ [[]])
  /\ (T2 <> []
      /\ Forall (fun tab => str_trim (url tab) <> [] /\ ~ contains_anchor (url tab)) T2
      /\ Action.extract false (CopyTo.text T2) <> map url T2).
Proof.
  split; [split; discriminate|].
  split; [discriminate|]. split; [|discriminate].
  repeat constructor; [discriminate|].
  apply exec_anchor_None. reflexivity.
Qed.

(* ===================================================================== *)
(** ** The helper: creation and clipboard writes *)
(* ===================================================================== *)

Lemma ensure_run st : createOffscreenDocumentIfNeeded st = (Ok tt, ensured st).
Proof. unfold ensured. destruct st as [[] ? ? ? ? ? ? ? ? ?]; reflexivity. Qed.

Lemma ensured_ready st : offscreen (ensured st) = Ready.
Proof. unfold ensured. destruct st as [[] ? ? ? ? ? ? ? ? ?]; reflexivity. Qed.

Lemma documents_created_app l1 l2 :
  documents_created (l1 ++ l2) = documents_created l1 + documents_created l2.
Proof. unfold documents_created. now rewrite List.filter_app, length_app. Qed.

(** C7. From any state, two calls of [createOffscreenDocumentIfNeeded] in
    sequence leave exactly one helper; the second call only queries the
    contexts and returns normally; over the two calls the creation primitive
    is called once if there was no helper and not at all if there was one;
    and a call made while a helper exists queries the contexts and changes
    nothing else. *)
Theorem ensure_ready_idempotent (st : State) :
  let once := final createOffscreenDocumentIfNeeded st in
  let twice := final createOffscreenDocumentIfNeeded once in
  live_helpers twice = 1
  /\ outcome createOffscreenDocumentIfNeeded once = Ok tt
  /\ twice = set_log (log once ++ [EvGetContexts]) once
  /\ documents_created (log twice) = documents_created (log st) + (1 - live_helpers st)
  /\ final createOffscreenDocumentIfNeeded (set_offscreen Ready st)
     = set_log (log st ++ [EvGetContexts]) (set_offscreen Ready st).
Proof.
  unfold final, outcome. rewrite !ensure_run. simpl.
  destruct st as [[] ? ? ? ? ? ? ? ? ?]; unfold ensured, live_helpers; simpl;
    rewrite !documents_created_app; simpl; repeat split; try reflexivity;
    change (documents_created [EvGetContexts]) with 0;
    change (documents_created [EvCreateDocument]) with 1; lia.
Qed.

Lemma write_to_clipboard_run st text extendedMime :
  Offscreen.writeToClipboard text extendedMime st
  = (Ok tt,
     set_document {| buffer_value := text_or_placeholder text;
                     buffer_selected := true;
                     oncopy := oncopy (document st) |}
       (set_clipboard (text_or_placeholder text)
          (match extendedMime with
           | Some true => Some (text_or_placeholder text)
           | _ => None
           end) st)).
Proof.
  destruct st as [? [? ? ?] ? ? ? ? ? ? ? ?].
  destruct text as [[|c s]|]; destruct extendedMime as [[]|]; reflexivity.
Qed.

Lemma read_from_clipboard_oncopy st :
  oncopy (document (final Offscreen.readFromClipboard st)) = oncopy (document st).
Proof. destruct st as [? [? ? ?] ? ? ? ? ? ? ? ?]. reflexivity. Qed.

(** C10. [writeToClipboard] leaves [document.oncopy] as it found it, for
    every text and every value of [extendedMime], whatever handler was
    installed before: the handler is saved, replaced by the closure while the
    copy command runs (with [extendedMime] true the closure's data, the HTML
    flavour too, is what reaches the clipboard), and put back.  So every
    message the helper's listener handles leaves the handler unchanged. *)
Theorem writeToClipboard_restores_oncopy :
  (forall st text extendedMime,
      oncopy (document (final (Offscreen.writeToClipboard text extendedMime) st))
      = oncopy (document st))
  /\ (forall st text,
        clipboard_html (final (Offscreen.writeToClipboard text (Some true)) st)
        = Some (text_or_placeholder text))
  /\ (forall st message,
        oncopy (document (final (Offscreen.onMessage message) st))
        = oncopy (document st)).
Proof.
  split; [|split].
  - intros st text ext. unfold final. now rewrite write_to_clipboard_run.
  - intros st text. unfold final. now rewrite write_to_clipboard_run.
  - intros st [text ext| |n|e|text]; try reflexivity.
    unfold final, Offscreen.onMessage, bind. now rewrite write_to_clipboard_run.
Qed.

Lemma text_or_placeholder_nonempty str : text_or_placeholder str <> [].
Proof. destruct str as [[|c s]|]; discriminate. Qed.

Lemma clipboard_write_run st str extended_mime :
  Clipboard.write str extended_mime st
  = (Ok tt,
     let st' := ensured st in
     set_queue (queue st' ++ [TOffscreenMessage
                                (ToOffscreenCopy (Some (text_or_placeholder str)) extended_mime)])
       (set_log (log st' ++ [EvSendMessage
                               (ToOffscreenCopy (Some (text_or_placeholder str)) extended_mime)])
          st')).
Proof.
  unfold Clipboard.write, try_catch, bind. rewrite ensure_run.
  unfold chrome_runtime_sendMessage, bind, emit, modify, get. simpl.
  rewrite ensured_ready. simpl.
  destruct str as [[|c s]|]; reflexivity.
Qed.

(** C8. A write request puts on the clipboard the text itself when it is
    non-empty and the placeholder [<empty>] when it is the empty string or
    [undefined], so never the empty string: [Clipboard.write] forwards that
    text to the helper, [writeToClipboard] leaves it on the clipboard, and
    so does the event loop run on a detached [Clipboard.write]. *)
Theorem clipboard_write_never_empty :
  (forall str, text_or_placeholder str <> [])
  /\ (forall c s, text_or_placeholder (Some (c :: s)) = c :: s)
  /\ text_or_placeholder (Some []) = lit "<empty>"
  /\ text_or_placeholder None = lit "<empty>"
  /\ (forall st str extended_mime,
        exists st',
          final (Clipboard.write str extended_mime) st
          = set_queue (queue st' ++ [TOffscreenMessage
                                       (ToOffscreenCopy (Some (text_or_placeholder str))
                                                        extended_mime)]) st')
  /\ (forall st text extendedMime,
        clipboard (final (Offscreen.writeToClipboard text extendedMime) st)
        = text_or_placeholder text)
  /\ (forall st str extended_mime,
        clipboard (EventLoop.drain 2
                     (set_queue [TClipboardWrite str extended_mime] st))
        = text_or_placeholder str).
Proof.
  split; [exact text_or_placeholder_nonempty|].
  split; [reflexivity|]. split; [reflexivity|]. split; [reflexivity|].
  split; [|split].
  - intros st str ext. unfold final. rewrite clipboard_write_run.
    eexists (set_log _ (ensured st)). reflexivity.
  - intros st text ext. unfold final. now rewrite write_to_clipboard_run.
  - intros st str ext.
    destruct st as [[] [? ? ?] ? ? ? ? ? ? ? ?];
      destruct str as [[|c s]|]; destruct ext as [[]|]; reflexivity.
Qed.

(* ===================================================================== *)
(** ** Copy: the query, the formatted tabs and the reply *)
(* ===================================================================== *)

Lemma copy_run opt st :
  Action.copy opt st
  = (Ok {| copy_count := 0 |},
     set_queue (queue st ++ [TTabsQuery (Action.copy_tabQuery opt) (length (cells st))])
       (set_log (log st ++ [EvTabsQuery (Action.copy_tabQuery opt)])
          (set_cells (cells st ++ [0]) st))).
Proof.
  unfold Action.copy, bind, try_catch, alloc, read_cell, chrome_tabs_query,
    emit, enqueue, modify, get, ret, bind. simpl.
  now rewrite list_lookup_middle.
Qed.

Lemma copy_callback_run tabCount tabs st :
  Action.copy_callback tabCount tabs st
  = (Ok tt,
     let cells' := <[tabCount := length tabs]> (cells st) in
     set_log (log st ++ [EvSendMessage (NotifyCopy (default 0 (cells' !! tabCount)))])
       (set_queue (queue st ++ [TClipboardWrite (Some (CopyTo.text tabs)) (Some false)])
          (set_cells cells' st))).
Proof. destruct st as [[] ? ? ? ? ? ? ? ? ?]; reflexivity. Qed.

Lemma query_tabs_all all : query_tabs {| q_windowId := None |} all = all.
Proof. reflexivity. Qed.

Lemma query_tabs_window w all tab :
  In tab (query_tabs {| q_windowId := Some w |} all) <-> In tab all /\ windowId tab = w.
Proof.
  unfold query_tabs. simpl. rewrite filter_In. now rewrite Z.eqb_eq.
Qed.

Lemma responses_app l1 l2 : responses (l1 ++ l2) = responses l1 ++ responses l2.
Proof. unfold responses. apply omap_app. Qed.

Lemma getCurrent_callback_run message win st :
  exists q,
    final (getCurrent_callback message win) st
    = set_log ((log st ++ [EvTabsQuery q]) ++ [EvSendResponse (RespSuccess (Some 0))])
        (set_queue (queue st ++ [TTabsQuery q (length (cells st))])
           (set_cells (cells st ++ [0]) st)).
Proof.
  eexists. unfold final, getCurrent_callback, bind. rewrite copy_run. reflexivity.
Qed.

(** C2 on the code: the count in the reply is 0, whatever the tabs.
    [Action.copy] returns [{count: tabCount}] before the callback of
    [chrome.tabs.query] has assigned [tabCount], so it returns a count of 0
    in every state; every reply the listener or its [getCurrent] callback
    gives to a copy command is therefore [{success:true, count:0}].  In the
    sample browser, with three tabs open, a copy of all windows is answered
    with a count of 0 while three tabs are formatted, announced to the popup
    and written to the clipboard. *)
Theorem copy_reply_count_is_zero :
  (forall opt st, outcome (Action.copy opt) st = Ok {| copy_count := 0 |})
  /\ (forall message win st,
        responses (log (final (getCurrent_callback message win) st))
        = responses (log st) ++ [RespSuccess (Some 0)])
  /\ (forall message st,
        exists rs,
          responses (log (final (onMessage (MCopy message)) st))
          = responses (log st) ++ rs
          /\ Forall (fun r => r = RespSuccess (Some 0)) rs)
  /\ (let after := EventLoop.deliver
                     (MCopy {| msg_window := Some {| id := None |};
                               msg_allWindows := Some true |}) browser in
      responses (log after) = [RespSuccess (Some 0)]
      /\ In (EvSendMessage (NotifyCopy 3)) (log after)
      /\ clipboard after = CopyTo.text three_tabs
      /\ queue after = []).
Proof.
  split; [|split; [|split]].
  - intros opt st. unfold outcome. now rewrite copy_run.
  - intros message win st.
    destruct (getCurrent_callback_run message win st) as [q ->]. simpl.
    rewrite !responses_app. simpl. now rewrite app_nil_r.
  - assert (Hnone : forall st : State,
               responses (log st ++ [EvGetCurrentWindow]) = responses (log st) ++ []
               /\ Forall (fun r => r = RespSuccess (Some 0)) []).
    { intros st. rewrite responses_app. split; [reflexivity|constructor]. }
    intros [[[[w|]]|] allWindows] st; unfold final; cbn -[Action.copy].
    + destruct (w =? 0)%Z; cbn -[Action.copy].
      * exists []. apply Hnone.
      * exists [RespSuccess (Some 0)]. unfold try_catch, bind.
        rewrite copy_run. simpl. rewrite !responses_app. simpl.
        rewrite app_nil_r. split; [reflexivity|repeat constructor].
    + exists []. apply Hnone.
    + exists []. apply Hnone.
  - vm_compute. repeat split; auto 10.
Qed.

(* ===================================================================== *)
(** ** Paste: the result and the tabs opened *)
(* ===================================================================== *)

Lemma each_tabs_create_run (urlList : list jsstring) : forall key st,
  each_from key urlList (fun _ val => chrome_tabs_create val) st
  = (Ok tt,
     set_tabs (opened st urlList) (set_log (log st ++ map EvTabsCreate urlList) st)).
Proof.
  induction urlList as [|val urlList IH]; intros key st.
  - simpl. rewrite app_nil_r. now destruct st.
  - simpl. unfold bind, chrome_tabs_create, emit, modify, bind. rewrite IH.
    unfold opened. simpl. now rewrite <- app_assoc.
Qed.

Lemma read_run st : Clipboard.read st = (Ok (clipboard st), after_read st).
Proof.
  unfold Clipboard.read, try_catch, bind. rewrite ensure_run.
  unfold Offscreen.sendMessage_await, bind, emit, modify, get. simpl.
  rewrite ensured_ready. unfold after_read.
  destruct st as [[] [? ? ?] ? ? [|c s] ? ? ? ? ?]; reflexivity.
Qed.

Lemma notify_run msg st :
  match msg with NotifyCopy _ | NotifyPaste _ => True | _ => False end ->
  chrome_runtime_sendMessage msg st = (Ok tt, set_log (log st ++ [EvSendMessage msg]) st).
Proof.
  intros H. destruct msg; try contradiction;
    unfold chrome_runtime_sendMessage, bind, emit, modify, get; simpl;
    now destruct (offscreen st).
Qed.

(** What [Action.paste] returns and does, in every state: it reads the
    clipboard text; when the first step of the extraction gives [null] it
    reports that no URL was found, and otherwise it asks for one tab per
    extracted URL, in order, and returns their number. *)
Lemma paste_run opt st :
  Action.paste opt st
  = match Action.split_or_match (Action.useIntelligentPaste opt) (clipboard st) with
    | None =>
        (Ok {| paste_count := 0; paste_error := Some NO_URL_FOUND |},
         set_log (log (after_read st) ++ [EvSendMessage (NotifyPaste (Some NO_URL_FOUND))])
           (after_read st))
    | Some _ =>
        let urls := Action.extract (Action.useIntelligentPaste opt) (clipboard st) in
        (Ok {| paste_count := length urls; paste_error := None |},
         set_log ((log (after_read st) ++ map EvTabsCreate urls)
                  ++ [EvSendMessage (NotifyPaste None)])
           (set_tabs (opened (after_read st) urls) (after_read st)))
    end.
Proof.
  unfold Action.paste, try_catch, bind at 1. rewrite read_run.
  unfold Action.extract.
  destruct (Action.split_or_match (Action.useIntelligentPaste opt) (clipboard st))
    as [urlList|].
  - unfold bind, each. rewrite each_tabs_create_run.
    rewrite notify_run by exact I. reflexivity.
  - unfold bind. rewrite notify_run by exact I. reflexivity.
Qed.

Lemma tabs_created_app l1 l2 : tabs_created (l1 ++ l2) = tabs_created l1 ++ tabs_created l2.
Proof. unfold tabs_created. apply omap_app. Qed.

Lemma tabs_created_creates urls : tabs_created (map EvTabsCreate urls) = urls.
Proof. induction urls as [|u urls IH]; [reflexivity|]. simpl. now rewrite IH. Qed.

Lemma ensured_tabs_created st : tabs_created (log (ensured st)) = tabs_created (log st).
Proof.
  unfold ensured. destruct (offscreen st); simpl;
    rewrite !tabs_created_app; simpl; now rewrite ?app_nil_r.
Qed.

Lemma after_read_tabs_created st :
  tabs_created (log (after_read st)) = tabs_created (log st).
Proof.
  unfold after_read. simpl. rewrite !tabs_created_app, ensured_tabs_created.
  simpl. now rewrite !app_nil_r.
Qed.

(** The parts of C1 that hold: the tab-creation requests of a paste are the
    extracted URLs in order; a result without error counts them; and in
    regex mode the error is reported exactly when no URL is extracted. *)
Lemma paste_opens_extracted opt st :
  tabs_created (log (final (Action.paste opt) st))
  = tabs_created (log st)
    ++ Action.extract (Action.useIntelligentPaste opt) (clipboard st).
Proof.
  unfold final. rewrite paste_run. unfold Action.extract.
  destruct (Action.split_or_match (Action.useIntelligentPaste opt) (clipboard st));
    cbn [snd log set_log]; rewrite !tabs_created_app, after_read_tabs_created.
  - rewrite tabs_created_creates. simpl. now rewrite app_nil_r.
  - simpl. reflexivity.
Qed.

Lemma paste_count_is_extracted opt st result :
  outcome (Action.paste opt) st = Ok result ->
  paste_count result
  = length (Action.extract (Action.useIntelligentPaste opt) (clipboard st)).
Proof.
  unfold outcome. rewrite paste_run. unfold Action.extract.
  destruct (Action.split_or_match (Action.useIntelligentPaste opt) (clipboard st));
    simpl; intros [= <-]; reflexivity.
Qed.

Lemma paste_regex_error_iff message st result :
  msg_intelligent message = Some true ->
  outcome (Action.paste {| paste_message := Some message |}) st = Ok result ->
  (paste_error result = Some NO_URL_FOUND <-> Action.extract true (clipboard st) = [])
  /\ (paste_error result = None <-> Action.extract true (clipboard st) <> []).
Proof.
  intros Hm. unfold outcome. rewrite paste_run.
  unfold Action.useIntelligentPaste. simpl. rewrite Hm.
  rewrite extract_regex.
  unfold Action.extract, Action.split_or_match, match_global.
  destruct (scan true url_pattern 0 (clipboard st)) as [|w ws] eqn:E;
    simpl; intros [= <-]; simpl.
  - split; split; congruence.
  - split; split; congruence.
Qed.

(** C1 on the code: an empty clipboard in line-split mode is not reported
    as an error.  The extraction yields no URL there, yet [Action.paste]
    returns [{count: 0}] with no error, in line-split mode it never returns
    an error at all, and the reply the listener gives to a paste command is
    [{success: true}] with an undefined count in every case, sent before
    [Action.paste] has run.  (The second response of the sample run is the
    listener's answer to the helper's [paste-result] message.) *)
Theorem paste_empty_clipboard_no_error :
  (forall st intelligent,
      intelligent <> Some true ->
      let opt := {| paste_message := Some {| msg_intelligent := intelligent |} |} in
      let st0 := set_clipboard [] None st in
      Action.extract (Action.useIntelligentPaste opt) (clipboard st0) = []
      /\ outcome (Action.paste opt) st0 = Ok {| paste_count := 0; paste_error := None |}
      /\ tabs_created (log (final (Action.paste opt) st0)) = tabs_created (log st0))
  /\ (forall st intelligent,
        intelligent <> Some true ->
        exists n,
          outcome (Action.paste
                     {| paste_message := Some {| msg_intelligent := intelligent |} |}) st
          = Ok {| paste_count := n; paste_error := None |})
  /\ (forall message st,
        responses (log (final (onMessage (MPaste message)) st))
        = responses (log st) ++ [RespSuccess None])
  /\ (let after := EventLoop.deliver (MPaste {| msg_intelligent := Some false |}) browser in
      responses (log after) = [RespSuccess None; RespText []]
      /\ tabs_created (log after) = []
      /\ In (EvSendMessage (NotifyPaste None)) (log after)
      /\ ~ In (EvSendMessage (NotifyPaste (Some NO_URL_FOUND))) (log after)
      /\ queue after = []).
Proof.
  assert (Hmode : forall intelligent, intelligent <> Some true ->
            Action.useIntelligentPaste
              {| paste_message := Some {| msg_intelligent := intelligent |} |} = false).
  { intros [[]|] H; try reflexivity. congruence. }
  split; [|split; [|split]].
  - intros st intelligent H opt st0.
    split; [|split].
    + unfold opt. now rewrite Hmode.
    + unfold outcome, opt. rewrite paste_run, Hmode by assumption. reflexivity.
    + unfold opt. rewrite paste_opens_extracted, Hmode by assumption.
      simpl. now rewrite app_nil_r.
  - intros st intelligent H. eexists. unfold outcome.
    rewrite paste_run, Hmode by assumption. reflexivity.
  - intros message st. unfold final. simpl. rewrite !responses_app. reflexivity.
  - vm_compute. repeat split; auto 10.
    intros H. repeat (destruct H as [H|H]; [discriminate H|]). exact H.
Qed.

Lemma paste_empty_clipboard_no_error_witness :
  Some false <> Some true
  /\ Action.extract false [] = []
  /\ outcome (Action.paste {| paste_message := Some {| msg_intelligent := Some false |} |})
       (set_clipboard [] None browser)
     = Ok {| paste_count := 0; paste_error := None |}.
Proof.
  assert (H : Some false <> Some true) by discriminate.
  destruct paste_empty_clipboard_no_error as (Hempty & _).
  destruct (Hempty browser (Some false) H) as (H1 & H2 & _).
  split; [exact H|]. split; [exact H1|exact H2].
Defined.

Lemma sample_has_anchor (seg w : jsstring) caps :
  exec true anchor_pattern seg = Some (w, caps) -> contains_anchor seg.
Proof.
  intros H. apply exec_anchor_Some in H as (u & pre & post & _ & E & A).
  exists pre, w, u, post. auto.
Defined.

Lemma line_split_extraction_witness :
  let anchor := lit "see <a class=x href=" ++ [DQUOTE] ++ lit " http://b.test/ "
                ++ [DQUOTE] ++ lit ">b</a> <a href=" ++ [DQUOTE] ++ lit "http://c.test/"
                ++ [DQUOTE] ++ lit ">" in
  let text := lit "  http://a.test  " ++ [LF] ++ anchor ++ [LF; LF] ++ lit "b" in
  let plain := lit "  http://a.test  " ++ [LF; LF] ++ lit "b" ++ [LF] ++ lit "b" in
  contains_anchor anchor
  /\ href_or_self anchor = lit " http://b.test/ "
  /\ Action.extract false text = [lit "http://a.test"; lit "http://b.test/"; lit "b"]
  /\ Forall (fun seg => ~ contains_anchor seg) (split_lf plain)
  /\ Action.extract false plain = [lit "http://a.test"; lit "b"; lit "b"].
Proof.
  intros anchor text plain.
  assert (Ha : contains_anchor anchor) by (eapply sample_has_anchor; reflexivity).
  assert (H : Forall (fun seg => ~ contains_anchor seg) (split_lf plain)).
  { repeat (constructor; [apply sample_url_no_anchor; reflexivity|]). constructor. }
  destruct line_split_extraction as (Hext & Hanchor & _ & _ & Hplain).
  destruct (Hanchor anchor Ha) as (pre & w & post & _ & _ & _).
  split; [exact Ha|]. split; [reflexivity|].
  split; [rewrite (Hext text); reflexivity|].
  split; [exact H|]. rewrite (Hplain plain H). reflexivity.
Defined.

(* ===================================================================== *)
(** ** The event loop runs dry *)
(* ===================================================================== *)

Lemma ensured_queue st : queue (ensured st) = queue st.
Proof. unfold ensured. now destruct (offscreen st). Qed.

Lemma after_read_queue st :
  queue (after_read st) = queue st ++ [TWorkerMessage (MPasteResult (clipboard st))].
Proof. unfold after_read. cbn [queue set_document set_queue]. now rewrite ensured_queue. Qed.

(** The listener leaves behind, after the tasks already pending, tasks of
    less weight than the delivery of its message. *)
Lemma onMessage_queue message st :
  exists new,
    queue (final (onMessage message) st) = queue st ++ new
    /\ list_sum (map EventLoop.weight new) < EventLoop.weight (TWorkerMessage message).
Proof.
  destruct message as [m|m| |text|].
  - assert (Hget : exists new,
              queue (final (chrome_windows_getCurrent m) st) = queue st ++ new
              /\ list_sum (map EventLoop.weight new) < 5).
    { exists [TGetCurrentWindow m]. split; [reflexivity|simpl; lia]. }
    destruct m as [[[[w|]]|] a]; unfold final at 1, onMessage, try_catch;
      cbn [msg_window id]; [destruct (w =? 0)%Z|..]; cbn [negb]; try exact Hget.
    unfold bind. rewrite copy_run. exists [TTabsQuery
      (Action.copy_tabQuery {| copy_window := Some {| id := Some w |};
                               copy_message := Some {| msg_window := Some {| id := Some w |};
                                                       msg_allWindows := a |} |})
      (length (cells st))].
    split; [reflexivity|simpl; lia].
  - exists [TActionPaste m]. split; [reflexivity|simpl; lia].
  - exists []. split; [now rewrite app_nil_r|simpl; lia].
  - exists []. split; [now rewrite app_nil_r|simpl; lia].
  - exists []. split; [now rewrite app_nil_r|simpl; lia].
Qed.

(** A task leaves behind, after the tasks already pending, tasks of less
    weight than its own. *)
Lemma run_task_queue t st :
  exists new,
    queue (final (EventLoop.run_task t) st) = queue st ++ new
    /\ list_sum (map EventLoop.weight new) < EventLoop.weight t.
Proof.
  destruct t as [message|tabQuery tabCount|str extended_mime|message|msg|message];
    unfold final, EventLoop.run_task.
  - unfold bind, get.
    destruct (getCurrent_callback_run message (currentWindow st) st) as [q Hq].
    unfold final in Hq. rewrite Hq. eexists. split; [reflexivity|simpl; lia].
  - unfold bind, get. rewrite copy_callback_run.
    eexists. split; [reflexivity|simpl; lia].
  - rewrite clipboard_write_run. cbn [snd queue set_queue set_log].
    rewrite ensured_queue. eexists. split; [reflexivity|simpl; lia].
  - unfold bind. rewrite paste_run.
    exists [TWorkerMessage (MPasteResult (clipboard st))].
    destruct (Action.split_or_match _ _); cbn [snd queue set_log set_tabs ret];
      (split; [|simpl; lia]); apply after_read_queue.
  - destruct msg as [text ext| |n|e|text].
    + exists []. split; [|simpl; lia]. rewrite app_nil_r.
      unfold Offscreen.onMessage, bind. now rewrite write_to_clipboard_run.
    + exists [TWorkerMessage (MPasteResult (clipboard st))].
      split; [|simpl; lia].
      destruct st as [[] [? ? ?] ? ? ? ? ? ? ? ?]; reflexivity.
    + exists []. split; [now rewrite app_nil_r|simpl; lia].
    + exists []. split; [now rewrite app_nil_r|simpl; lia].
    + exists []. split; [now rewrite app_nil_r|simpl; lia].
  - apply onMessage_queue.
Qed.

Lemma step_weight st st' :
  EventLoop.step st = Some st' -> EventLoop.queue_weight st' < EventLoop.queue_weight st.
Proof.
  unfold EventLoop.step, EventLoop.queue_weight.
  destruct (queue st) as [|t rest] eqn:E; [discriminate|].
  intros [= <-].
  destruct (run_task_queue t (set_queue rest st)) as (new & -> & Hlt).
  simpl. rewrite map_app, list_sum_app. lia.
Qed.

Lemma weight_pos t : 0 < EventLoop.weight t.
Proof. destruct t as [?|? ?|? ?|?|[]|[]]; simpl; lia. Qed.

(** With the weight of the pending tasks as fuel, nothing is left pending. *)
Lemma drain_empties fuel : forall st,
  EventLoop.queue_weight st <= fuel -> queue (EventLoop.drain fuel st) = [].
Proof.
  induction fuel as [|fuel IH]; intros st H; simpl.
  - unfold EventLoop.queue_weight in H.
    destruct (queue st) as [|t rest]; [reflexivity|].
    pose proof (weight_pos t). simpl in H. lia.
  - destruct (EventLoop.step st) as [st'|] eqn:E.
    + apply IH. apply step_weight in E. lia.
    + unfold EventLoop.step in E. now destruct (queue st).
Qed.

Lemma deliver_quiescent message st : queue (EventLoop.deliver message st) = [].
Proof. unfold EventLoop.deliver. now apply drain_empties. Qed.

(* ===================================================================== *)
(** ** Trimming *)
(* ===================================================================== *)

Lemma trim_start_spec (s : jsstring) :
  exists l, s = l ++ trim_start s
            /\ forallb is_white_space l = true
            /\ match trim_start s with c :: _ => is_white_space c = false | [] => True end.
Proof.
  induction s as [|c s (l & E & Hl & Hh)]; simpl.
  - exists []. auto.
  - destruct (is_white_space c) eqn:Hc.
    + exists (c :: l). simpl. rewrite Hc, Hl. repeat split; [congruence|assumption].
    + exists []. simpl. rewrite Hc. auto.
Qed.

Lemma trim_end_spec (s : jsstring) :
  exists r, s = trim_end s ++ r
            /\ forallb is_white_space r = true
            /\ forall t c, trim_end s = t ++ [c] -> is_white_space c = false.
Proof.
  unfold trim_end. destruct (trim_start_spec (rev s)) as (l & E & Hl & Hh).
  exists (rev l). split; [|split].
  - rewrite <- rev_app_distr, <- E. symmetry. apply rev_involutive.
  - rewrite forallb_forall in *. intros c Hc. apply Hl, in_rev, Hc.
  - intros t c Ht. apply (f_equal (@rev N)) in Ht.
    rewrite rev_involutive, rev_app_distr in Ht. simpl in Ht.
    now rewrite Ht in Hh.
Qed.

Lemma str_trim_spec (s : jsstring) :
  exists l r,
    s = l ++ str_trim s ++ r
    /\ forallb is_white_space l = true /\ forallb is_white_space r = true
    /\ (forall c t, str_trim s = c :: t -> is_white_space c = false)
    /\ (forall t c, str_trim s = t ++ [c] -> is_white_space c = false).
Proof.
  unfold str_trim.
  destruct (trim_start_spec s) as (l & E & Hl & Hh).
  destruct (trim_end_spec (trim_start s)) as (r & E' & Hr & Ht).
  exists l, r. repeat split; try assumption.
  - now rewrite <- E'.
  - intros c t Hc. rewrite E', Hc in Hh. exact Hh.
Qed.

Lemma str_trim_fixed (s : jsstring) :
  (forall c t, s = c :: t -> is_white_space c = false) ->
  (forall t c, s = t ++ [c] -> is_white_space c = false) ->
  str_trim s = s.
Proof.
  intros Hh Ht. unfold str_trim, trim_end.
  assert (H1 : trim_start s = s).
  { apply trim_start_id. destruct s as [|c t]; [exact I|]. eapply Hh; eauto. }
  assert (H2 : trim_start (rev s) = rev s).
  { apply trim_start_id. destruct (rev s) as [|c t] eqn:E; [exact I|].
    apply (Ht (rev t) c). apply (f_equal (@rev N)) in E.
    now rewrite rev_involutive in E. }
  rewrite H1, H2. apply rev_involutive.
Qed.

Lemma str_trim_idempotent (s : jsstring) : str_trim (str_trim s) = str_trim s.
Proof.
  destruct (str_trim_spec s) as (l & r & _ & _ & _ & Hh & Ht).
  now apply str_trim_fixed.
Qed.

(** X1. [trim] gives the empty string for [undefined]; for a string it
    gives the string without the white space at its two ends: what was cut
    off on either side is white space only, what is left neither starts nor
    ends with white space; and trimming twice is trimming once. *)
Theorem trim_contract :
  trim None = []
  /\ (forall s : jsstring,
        exists l r,
          s = l ++ trim (Some s) ++ r
          /\ forallb is_white_space l = true
          /\ forallb is_white_space r = true
          /\ (forall c t, trim (Some s) = c :: t -> is_white_space c = false)
          /\ (forall t c, trim (Some s) = t ++ [c] -> is_white_space c = false))
  /\ (forall s : jsstring, trim (Some (trim (Some s))) = trim (Some s)).
Proof.
  split; [reflexivity|]. split.
  - intros s. rewrite trim_Some. apply str_trim_spec.
  - intros s. rewrite !trim_Some. apply str_trim_idempotent.
Qed.

Lemma trim_contract_witness :
  trim (Some (lit "  a b ")) = lit "a b"
  /\ is_white_space 97 = false /\ is_white_space 98 = false.
Proof.
  destruct trim_contract as (_ & H & _).
  destruct (H (lit "  a b ")) as (l & r & _ & _ & _ & Hh & Ht).
  split; [reflexivity|]. split.
  - exact (Hh 97%N (lit " b") eq_refl).
  - exact (Ht (lit "a ") 98%N eq_refl).
Defined.

(* ===================================================================== *)
(** ** Turns of the event loop *)
(* ===================================================================== *)

Lemma drain_cons n st t rest :
  queue st = t :: rest ->
  EventLoop.drain (S n) st
  = EventLoop.drain n (final (EventLoop.run_task t) (set_queue rest st)).
Proof. intros H. simpl. unfold EventLoop.step. now rewrite H. Qed.

Lemma drain_nil n st : queue st = [] -> EventLoop.drain n st = st.
Proof. intros H. destruct n; simpl; [reflexivity|]. unfold EventLoop.step. now rewrite H. Qed.

Lemma queue_empty_eq st : queue st = [] -> st = set_queue [] st.
Proof. destruct st. simpl. now intros ->. Qed.

Lemma run_query_task q (cells0 : list nat) v st :
  cells st = cells0 ++ [v] ->
  final (EventLoop.run_task (TTabsQuery q (length cells0))) st
  = let sel := query_tabs q (tabs st) in
    set_log (log st ++ [EvSendMessage (NotifyCopy (length sel))])
      (set_queue (queue st ++ [TClipboardWrite (Some (CopyTo.text sel)) (Some false)])
         (set_cells (cells0 ++ [length sel]) st)).
Proof.
  intros Hc. unfold final, EventLoop.run_task, bind, get.
  rewrite copy_callback_run. cbn [snd]. rewrite Hc.
  rewrite insert_middle, list_lookup_middle by reflexivity. reflexivity.
Qed.

Lemma run_write_task str ext st :
  final (EventLoop.run_task (TClipboardWrite str ext)) st
  = let st' := ensured st in
    let msg := ToOffscreenCopy (Some (text_or_placeholder str)) ext in
    set_queue (queue st' ++ [TOffscreenMessage msg])
      (set_log (log st' ++ [EvSendMessage msg]) st').
Proof. unfold final, EventLoop.run_task. now rewrite clipboard_write_run. Qed.

Lemma run_offscreen_copy_task text ext st :
  final (EventLoop.run_task (TOffscreenMessage (ToOffscreenCopy text ext))) st
  = set_document {| buffer_value := text_or_placeholder text;
                    buffer_selected := true;
                    oncopy := oncopy (document st) |}
      (set_clipboard (text_or_placeholder text)
         (match ext with Some true => Some (text_or_placeholder text) | _ => None end)
         st).
Proof.
  unfold final, EventLoop.run_task, Offscreen.onMessage, bind.
  now rewrite write_to_clipboard_run.
Qed.

Lemma run_getCurrent_task message st :
  final (EventLoop.run_task (TGetCurrentWindow message)) st
  = let q := Action.copy_tabQuery {| copy_window := currentWindow st;
                                     copy_message := Some message |} in
    set_log ((log st ++ [EvTabsQuery q]) ++ [EvSendResponse (RespSuccess (Some 0))])
      (set_queue (queue st ++ [TTabsQuery q (length (cells st))])
         (set_cells (cells st ++ [0]) st)).
Proof.
  unfold final, EventLoop.run_task, bind, get, getCurrent_callback, bind.
  now rewrite copy_run.
Qed.

Lemma run_paste_task message st :
  final (EventLoop.run_task (TActionPaste message)) st
  = final (Action.paste {| paste_message := Some message |}) st.
Proof.
  unfold final, EventLoop.run_task, bind.
  now destruct (Action.paste {| paste_message := Some message |} st) as [[r|e] st'].
Qed.

Lemma text_or_placeholder_twice str :
  text_or_placeholder (Some (text_or_placeholder str)) = text_or_placeholder str.
Proof. now destruct str as [[|c s]|]. Qed.

(* ===================================================================== *)
(** ** A copy command from the message to the clipboard *)
(* ===================================================================== *)

Lemma drain_copy_call q st extra :
  queue st = [] ->
  EventLoop.drain (3 + extra)
    (set_log ((log st ++ [EvTabsQuery q]) ++ [EvSendResponse (RespSuccess (Some 0))])
       (set_queue (queue st ++ [TTabsQuery q (length (cells st))])
          (set_cells (cells st ++ [0]) st)))
  = copy_done q st.
Proof.
  intros Hq. rewrite Hq.
  change (3 + extra) with (S (S (S extra))).
  erewrite drain_cons by reflexivity.
  rewrite (run_query_task q (cells st) 0) by reflexivity.
  cbn [tabs queue log cells set_queue set_log set_cells app].
  erewrite drain_cons by reflexivity.
  rewrite run_write_task.
  cbv zeta. rewrite ensured_queue.
  cbn [tabs queue log cells set_queue set_log set_cells app].
  erewrite drain_cons by reflexivity.
  rewrite run_offscreen_copy_task, text_or_placeholder_twice.
  rewrite drain_nil by reflexivity.
  unfold copy_done, ensured.
  destruct st as [[] ? ? ? ? ? ? ? ? ?]; simpl in *; subst; reflexivity.
Qed.

Lemma deliver_copy message st :
  queue st = [] ->
  EventLoop.deliver (MCopy message) st = copy_command_done message st.
Proof.
  intros Hq. unfold EventLoop.deliver, copy_command_done, effective_query.
  assert (Hget :
    let s0 := final (chrome_windows_getCurrent message) st in
    EventLoop.drain (EventLoop.queue_weight s0) s0
    = copy_done (Action.copy_tabQuery {| copy_window := currentWindow st;
                                         copy_message := Some message |})
        (set_log (log st ++ [EvGetCurrentWindow]) st)).
  { destruct st as [o d t cw cl ch ce qu lg op]. simpl in Hq. subst qu.
    cbv zeta. unfold final, chrome_windows_getCurrent, bind, emit, enqueue, modify.
    cbn [snd]. unfold EventLoop.queue_weight.
    cbn [queue set_queue set_log log].
    cbn [app map list_sum fold_right EventLoop.weight Nat.add].
    erewrite drain_cons by reflexivity.
    rewrite run_getCurrent_task.
    exact (drain_copy_call _ (set_log (lg ++ [EvGetCurrentWindow])
                                {| offscreen := o; document := d; tabs := t;
                                   currentWindow := cw; clipboard := cl;
                                   clipboard_html := ch; cells := ce;
                                   queue := []; log := lg; open_tab := op |}) 0 eq_refl). }
  destruct message as [[[[w|]]|] a]; cbn [usable_id msg_window id];
    [destruct (w =? 0)%Z eqn:Hw|..];
    try (unfold final at 1 2, onMessage, try_catch; cbn [msg_window id];
         rewrite ?Hw; exact Hget).
  destruct st as [o d t cw cl ch ce qu lg op]. simpl in Hq. subst qu.
  unfold final at 1 2, onMessage, try_catch, bind.
  cbn [msg_window id]. rewrite Hw. cbn [negb].
  rewrite copy_run. cbn [snd fst copy_count].
  unfold sendResponse, emit, modify. cbn [snd].
  unfold EventLoop.queue_weight.
  cbn [queue set_queue set_log set_cells log].
  cbn [app map list_sum fold_right EventLoop.weight Nat.add].
  exact (drain_copy_call _ {| offscreen := o; document := d; tabs := t;
                              currentWindow := cw; clipboard := cl;
                              clipboard_html := ch; cells := ce;
                              queue := []; log := lg; open_tab := op |} 0 eq_refl).
Qed.

Lemma ensured_log st :
  exists evs,
    log (ensured st) = log st ++ evs
    /\ responses evs = [] /\ tabs_created evs = []
    /\ forall msg, ~ In (EvSendMessage msg) evs.
Proof.
  unfold ensured. destruct (offscreen st); simpl.
  - exists [EvGetContexts; EvCreateDocument]. rewrite <- app_assoc.
    repeat split; try reflexivity. intros msg [H|[H|[]]]; discriminate.
  - exists [EvGetContexts]. repeat split; try reflexivity.
    intros msg [H|[]]; discriminate.
Qed.

Lemma ensured_frame st :
  tabs (ensured st) = tabs st /\ clipboard (ensured st) = clipboard st
  /\ clipboard_html (ensured st) = clipboard_html st
  /\ currentWindow (ensured st) = currentWindow st
  /\ cells (ensured st) = cells st.
Proof. unfold ensured. destruct (offscreen st); repeat split; reflexivity. Qed.

Lemma selected_by_effective_query message st :
  query_tabs (effective_query message st) (tabs st) = selected_tabs message st.
Proof.
  unfold effective_query, selected_tabs, Action.copy_tabQuery, query_tabs, usable_id.
  destruct message as [[[[w|]]|] [[]|]]; cbn [msg_window msg_allWindows copy_window
    copy_message id negb andb q_windowId];
    try destruct (w =? 0)%Z eqn:Hw; cbn [negb andb q_windowId]; try reflexivity;
    destruct (currentWindow st) as [[[w'|]]|]; cbn [id negb andb q_windowId];
    try destruct (w' =? 0)%Z eqn:Hw'; cbn [negb andb q_windowId]; reflexivity.
Qed.

Lemma toText_nil_iff tabs : toText tabs = [] <-> tabs = [].
Proof.
  split; [|now intros ->].
  destruct tabs as [|tab tabs]; [reflexivity|].
  unfold toText. simpl. intros H. apply app_eq_nil in H as [H _].
  apply app_eq_nil in H as [_ H]. discriminate.
Qed.

Lemma placeholder_or_text tabs :
  text_or_placeholder (Some (CopyTo.text tabs))
  = match tabs with [] => lit "<empty>" | _ :: _ => toText tabs end.
Proof.
  rewrite text_toText. destruct tabs as [|tab tabs]; [reflexivity|].
  destruct (toText (tab :: tabs)) eqn:E; [|reflexivity].
  apply toText_nil_iff in E. discriminate.
Qed.

(** The parts of the final state of a copy command that the properties
    below read. *)
Lemma copy_command_done_facts message st :
  let after := copy_command_done message st in
  let sel := selected_tabs message st in
  clipboard after = text_or_placeholder (Some (CopyTo.text sel))
  /\ clipboard_html after = None
  /\ tabs after = tabs st
  /\ currentWindow after = currentWindow st
  /\ offscreen after = Ready
  /\ queue after = []
  /\ (exists evs,
        log after = log st ++ evs
        /\ responses evs = [RespSuccess (Some 0)]
        /\ tabs_created evs = []
        /\ In (EvSendMessage (NotifyCopy (length sel))) evs).
Proof.
  cbv zeta. rewrite <- selected_by_effective_query.
  unfold copy_command_done.
  set (q := effective_query message st).
  assert (H : forall st0, tabs st0 = tabs st -> currentWindow st0 = currentWindow st ->
            forall pre, log st0 = log st ++ pre -> responses pre = [] ->
                        tabs_created pre = [] ->
            let after := copy_done q st0 in
            let sel := query_tabs q (tabs st) in
            clipboard after = text_or_placeholder (Some (CopyTo.text sel))
            /\ clipboard_html after = None
            /\ tabs after = tabs st
            /\ currentWindow after = currentWindow st
            /\ offscreen after = Ready
            /\ queue after = []
            /\ (exists evs,
                  log after = log st ++ evs
                  /\ responses evs = [RespSuccess (Some 0)]
                  /\ tabs_created evs = []
                  /\ In (EvSendMessage (NotifyCopy (length sel))) evs)).
  { intros st0 Ht Hw pre Hlog Hr Hc. cbv zeta. unfold copy_done. rewrite Ht.
    set (sel := query_tabs q (tabs st)).
    set (s2 := set_log _ (set_cells _ st0)).
    destruct (ensured_log s2) as (evs & Hevs & Hresp & Hcre & Hmsg).
    destruct (ensured_frame s2) as (Ht2 & _ & _ & Hw2 & _).
    cbn [clipboard clipboard_html tabs currentWindow offscreen queue log
         set_document set_clipboard set_queue set_log].
    rewrite Ht2, Hw2, ensured_ready, Hevs.
    repeat split; try assumption.
    eexists. split.
    - unfold s2. cbn [log set_log set_cells]. rewrite Hlog.
      rewrite <- !app_assoc. reflexivity.
    - rewrite !responses_app, !tabs_created_app, Hr, Hc, Hresp, Hcre.
      repeat split; try reflexivity.
      apply in_or_app. right. simpl. auto. }
  destruct (usable_id (msg_window message)).
  - apply (H st eq_refl eq_refl []); [now rewrite app_nil_r|reflexivity..].
  - apply (H (set_log (log st ++ [EvGetCurrentWindow]) st) eq_refl eq_refl
             [EvGetCurrentWindow]); reflexivity.
Qed.

(** C9 on the code: a window id of 0 is taken for a missing id.  What
    holds: when the command asks for all windows ([allWindows] true or
    absent), [Action.copy] queries with no [windowId] and every open tab is
    copied; when it asks for one window ([allWindows] false) and names a
    window whose [id] is [w], not zero, [Action.copy] queries with
    [windowId] [w] and exactly the open tabs of window [w] are copied.  But
    the tests [!message.window.id] of the listener and [opt.window.id] of
    [Action.copy] are tests of truthiness: a command that names the window
    with id 0 is sent through [chrome.windows.getCurrent] like a command
    that names no window, and gets the tabs of the current window, or of
    every window when the current window has no usable id; and
    [Action.copy], given a window with id 0, queries with no [windowId]. *)
Theorem copy_scope_selection :
  (forall window mw allWindows,
      allWindows <> Some false ->
      Action.copy_tabQuery
        {| copy_window := window;
           copy_message := Some {| msg_window := mw; msg_allWindows := allWindows |} |}
      = {| q_windowId := None |})
  /\ (forall w mw,
        w <> 0%Z ->
        Action.copy_tabQuery
          {| copy_window := Some {| id := Some w |};
             copy_message := Some {| msg_window := mw; msg_allWindows := Some false |} |}
        = {| q_windowId := Some w |})
  /\ (forall mw,
        Action.copy_tabQuery
          {| copy_window := Some {| id := Some 0%Z |};
             copy_message := Some {| msg_window := mw; msg_allWindows := Some false |} |}
        = {| q_windowId := None |})
  /\ (forall opt st,
        log (final (Action.copy opt) st)
        = log st ++ [EvTabsQuery (Action.copy_tabQuery opt)]
        /\ queue (final (Action.copy opt) st)
           = queue st ++ [TTabsQuery (Action.copy_tabQuery opt) (length (cells st))])
  /\ (forall tabQuery tabCount st,
        queue (final (EventLoop.run_task (TTabsQuery tabQuery tabCount)) st)
        = queue st ++ [TClipboardWrite
                         (Some (CopyTo.text (query_tabs tabQuery (tabs st))))
                         (Some false)])
  /\ (forall all, query_tabs {| q_windowId := None |} all = all)
  /\ (forall w all tab,
        In tab (query_tabs {| q_windowId := Some w |} all)
        <-> In tab all /\ windowId tab = w)
  /\ (forall st mw allWindows,
        queue st = [] -> allWindows <> Some false ->
        clipboard (EventLoop.deliver
                     (MCopy {| msg_window := mw; msg_allWindows := allWindows |}) st)
        = text_or_placeholder (Some (CopyTo.text (tabs st))))
  /\ (forall st w,
        queue st = [] -> w <> 0%Z ->
        clipboard (EventLoop.deliver
                     (MCopy {| msg_window := Some {| id := Some w |};
                               msg_allWindows := Some false |}) st)
        = text_or_placeholder
            (Some (CopyTo.text (List.filter (fun t => (windowId t =? w)%Z) (tabs st)))))
  /\ (forall st,
        queue st = [] ->
        clipboard (EventLoop.deliver
                     (MCopy {| msg_window := Some {| id := Some 0%Z |};
                               msg_allWindows := Some false |}) st)
        = text_or_placeholder
            (Some (CopyTo.text
                     match currentWindow st with
                     | Some {| id := Some c |} =>
                         if (c =? 0)%Z then tabs st
                         else List.filter (fun t => (windowId t =? c)%Z) (tabs st)
                     | _ => tabs st
                     end))).
Proof.
  assert (Hcopied : forall st message,
            queue st = [] ->
            clipboard (EventLoop.deliver (MCopy message) st)
            = text_or_placeholder (Some (CopyTo.text (selected_tabs message st)))).
  { intros st message Hq. rewrite (deliver_copy message st Hq).
    now destruct (copy_command_done_facts message st) as (-> & _). }
  split; [|split; [|split; [|split; [|split; [|split; [|split; [|split; [|split]]]]]]]].
  - intros window mw [[]|] H; try congruence;
      destruct window as [[[w|]]|]; try reflexivity;
      unfold Action.copy_tabQuery; simpl; reflexivity.
  - intros w mw Hw. unfold Action.copy_tabQuery. simpl.
    apply Z.eqb_neq in Hw. now rewrite Hw.
  - reflexivity.
  - intros opt st. unfold final. rewrite copy_run. split; reflexivity.
  - intros tabQuery tabCount st. unfold final, EventLoop.run_task, bind, get.
    rewrite copy_callback_run. reflexivity.
  - exact query_tabs_all.
  - exact query_tabs_window.
  - intros st mw allWindows Hq Ha. rewrite (Hcopied _ _ Hq).
    unfold selected_tabs. cbn [msg_allWindows].
    destruct allWindows as [[]|]; [reflexivity|congruence|reflexivity].
  - intros st w Hq Hw. rewrite (Hcopied _ _ Hq).
    unfold selected_tabs, usable_id. cbn [msg_allWindows msg_window id].
    apply Z.eqb_neq in Hw. now rewrite Hw.
  - intros st Hq. rewrite (Hcopied _ _ Hq).
    unfold selected_tabs, usable_id. cbn [msg_allWindows msg_window id Z.eqb].
    destruct (currentWindow st) as [[[c|]]|]; try reflexivity.
    now destruct (c =? 0)%Z.
Qed.

Lemma copy_scope_selection_witness :
  let message := {| msg_window := Some {| id := Some 0%Z |};
                    msg_allWindows := Some false |} in
  queue browser_zero = []
  /\ List.filter (fun t => (windowId t =? 0)%Z) (tabs browser_zero)
     = [tab_at 0 (lit "http://z.test")]
  /\ clipboard (EventLoop.deliver (MCopy message) browser_zero)
     = lit "http://a.test" ++ [LF]
  /\ 2%Z <> 0%Z
  /\ clipboard (EventLoop.deliver
                  (MCopy {| msg_window := Some {| id := Some 2%Z |};
                            msg_allWindows := Some false |}) browser)
     = lit "https://b.test/path" ++ [LF]
  /\ Some true <> Some false
  /\ clipboard (EventLoop.deliver
                  (MCopy {| msg_window := None; msg_allWindows := Some true |}) browser)
     = CopyTo.text three_tabs.
Proof.
  intros message. subst message.
  destruct copy_scope_selection as (_ & _ & _ & _ & _ & _ & _ & Hall & Hone & Hzero).
  assert (H2 : 2%Z <> 0%Z) by discriminate.
  assert (Ht : Some true <> Some false) by discriminate.
  split; [reflexivity|]. split; [reflexivity|].
  split; [rewrite (Hzero browser_zero eq_refl); reflexivity|].
  split; [exact H2|].
  split; [rewrite (Hone browser 2%Z eq_refl H2); reflexivity|].
  split; [exact Ht|].
  rewrite (Hall browser None (Some true) eq_refl Ht). reflexivity.
Defined.



(** X3. The "all windows" box of the popup, through to the clipboard.
    With the box checked the copy button copies the tabs of every window.
    With the box unchecked it copies the tabs of the window the browser
    reports as current; and when the browser reports no current window, or
    one without an id, or with the id 0, it copies the tabs of every window
    all the same. *)
Theorem popup_copy_scope (st : State) :
  queue st = [] ->
  clipboard (EventLoop.deliver (MCopy (Popup.copy_click true)) st)
  = text_or_placeholder (Some (CopyTo.text (tabs st)))
  /\ (forall w,
        currentWindow st = Some {| id := Some w |} -> w <> 0%Z ->
        clipboard (EventLoop.deliver (MCopy (Popup.copy_click false)) st)
        = text_or_placeholder
            (Some (CopyTo.text (List.filter (fun t => (windowId t =? w)%Z) (tabs st)))))
  /\ (usable_id (currentWindow st) = None ->
      clipboard (EventLoop.deliver (MCopy (Popup.copy_click false)) st)
      = text_or_placeholder (Some (CopyTo.text (tabs st)))).
Proof.
  intros Hq. rewrite !(deliver_copy _ st Hq).
  split; [|split].
  - now destruct (copy_command_done_facts (Popup.copy_click true) st) as (-> & _).
  - intros w Hw Hne.
    destruct (copy_command_done_facts (Popup.copy_click false) st) as (-> & _).
    unfold selected_tabs, usable_id. cbn [Popup.copy_click msg_allWindows msg_window id].
    rewrite Hw. apply Z.eqb_neq in Hne. now rewrite Hne.
  - intros Hw.
    destruct (copy_command_done_facts (Popup.copy_click false) st) as (-> & _).
    unfold selected_tabs. cbn [Popup.copy_click msg_allWindows msg_window usable_id id].
    now rewrite Hw.
Qed.

Lemma popup_copy_scope_witness :
  queue browser = []
  /\ currentWindow browser = Some {| id := Some 1%Z |} /\ 1%Z <> 0%Z
  /\ clipboard (EventLoop.deliver (MCopy (Popup.copy_click false)) browser)
     = lit "http://a.test" ++ [LF] ++ lit "ftp://c.test" ++ [LF]
  /\ usable_id (currentWindow (without_current_window browser)) = None
  /\ clipboard (EventLoop.deliver (MCopy (Popup.copy_click false))
                  (without_current_window browser))
     = CopyTo.text three_tabs.
Proof.
  destruct (popup_copy_scope browser eq_refl) as (_ & H & _).
  destruct (popup_copy_scope (without_current_window browser) eq_refl) as (_ & _ & H').
  split; [reflexivity|]. split; [reflexivity|]. split; [discriminate|].
  split; [rewrite (H 1%Z eq_refl); [reflexivity|discriminate]|].
  split; [reflexivity|]. rewrite (H' eq_refl). reflexivity.
Defined.

(* ===================================================================== *)
(** ** A paste command, and copy followed by paste *)
(* ===================================================================== *)

Lemma ensured_open_tab st : open_tab (ensured st) = open_tab st.
Proof. unfold ensured. now destruct (offscreen st). Qed.

Lemma after_read_frame st :
  tabs (after_read st) = tabs st /\ clipboard (after_read st) = clipboard st
  /\ clipboard_html (after_read st) = clipboard_html st
  /\ queue (after_read st) = queue st ++ [TWorkerMessage (MPasteResult (clipboard st))]
  /\ offscreen (after_read st) = Ready
  /\ open_tab (after_read st) = open_tab st.
Proof.
  rewrite after_read_queue. unfold after_read.
  cbn [tabs clipboard clipboard_html offscreen open_tab set_document set_queue set_log].
  destruct (ensured_frame st) as (-> & -> & -> & _).
  now rewrite ensured_ready, ensured_open_tab.
Qed.

Lemma opened_frame st st' urls :
  tabs st' = tabs st -> open_tab st' = open_tab st -> opened st' urls = opened st urls.
Proof. unfold opened. now intros -> ->. Qed.

Lemma after_read_log st :
  exists evs,
    log (after_read st) = log st ++ evs
    /\ responses evs = [] /\ tabs_created evs = [].
Proof.
  unfold after_read. cbn [log set_document set_queue set_log].
  destruct (ensured_log st) as (evs & -> & Hr & Hc & _).
  exists (evs ++ [EvSendMessage ToOffscreenPaste;
                  EvSendMessage (PasteResultMsg (clipboard st))]).
  rewrite !responses_app, !tabs_created_app, Hr, Hc, <- !app_assoc.
  repeat split; reflexivity.
Qed.

Lemma responses_creates urls : responses (map EvTabsCreate urls) = [].
Proof. induction urls; [reflexivity|assumption]. Qed.

(** What a call of [Action.paste] leaves: the clipboard as it was, the open
    tabs as the browser made them of the requests, the helper's
    [paste-result] message pending, and in the log the requests for the
    extracted URLs and no response. *)
Lemma paste_frame opt st :
  let after := final (Action.paste opt) st in
  let urls := Action.extract (Action.useIntelligentPaste opt) (clipboard st) in
  tabs after = opened st urls /\ clipboard after = clipboard st
  /\ clipboard_html after = clipboard_html st
  /\ queue after = queue st ++ [TWorkerMessage (MPasteResult (clipboard st))]
  /\ offscreen after = Ready
  /\ open_tab after = open_tab st
  /\ exists evs,
       log after = log st ++ evs /\ responses evs = [] /\ tabs_created evs = urls.
Proof.
  cbv zeta. unfold final. rewrite paste_run.
  destruct (after_read_frame st) as (Ht & Hc & Hh & Hq & Ho & Hop).
  destruct (after_read_log st) as (evs & Hlog & Hr & Hcre).
  unfold Action.extract.
  destruct (Action.split_or_match _ _) as [urlList|];
    cbn [snd tabs clipboard clipboard_html queue offscreen open_tab log set_log set_tabs];
    rewrite Hlog; (repeat split; try assumption).
  - now apply opened_frame.
  - eexists. split; [rewrite <- !app_assoc; reflexivity|].
    rewrite !responses_app, !tabs_created_app, Hr, Hcre, responses_creates,
      tabs_created_creates. simpl. now rewrite app_nil_r.
  - eexists. split; [rewrite <- app_assoc; reflexivity|].
    now rewrite responses_app, tabs_created_app, Hr, Hcre.
Qed.

Lemma run_worker_paste_result text st :
  final (EventLoop.run_task (TWorkerMessage (MPasteResult text))) st
  = set_log (log st ++ [EvSendResponse (RespText text)]) st.
Proof. reflexivity. Qed.

Lemma deliver_paste message st :
  queue st = [] ->
  EventLoop.deliver (MPaste message) st
  = let pasted := final (Action.paste {| paste_message := Some message |})
                    (set_log (log st ++ [EvSendResponse (RespSuccess None)]) st) in
    set_log (log pasted ++ [EvSendResponse (RespText (clipboard st))])
      (set_queue [] pasted).
Proof.
  intros Hq. destruct st as [o d t cw cl ch ce qu lg op]. simpl in Hq. subst qu.
  unfold EventLoop.deliver.
  unfold final at 1 2, onMessage, try_catch, bind, enqueue, sendResponse, emit, modify.
  cbn [snd]. unfold EventLoop.queue_weight.
  cbn [queue set_queue set_log log].
  cbn [app map list_sum fold_right EventLoop.weight Nat.add].
  erewrite drain_cons by reflexivity.
  rewrite run_paste_task.
  match goal with
  | |- EventLoop.drain 1 (final ?c ?s) = _ =>
      destruct (paste_frame {| paste_message := Some message |} s)
        as (_ & _ & _ & Hqu & _)
  end.
  cbn [queue clipboard set_queue set_log app] in Hqu.
  erewrite drain_cons by exact Hqu.
  rewrite run_worker_paste_result. reflexivity.
Qed.

(** What a paste command leaves when nothing was pending. *)
Lemma paste_delivered message st :
  queue st = [] ->
  let after := EventLoop.deliver (MPaste message) st in
  let urls := Action.extract
                (Action.useIntelligentPaste {| paste_message := Some message |})
                (clipboard st) in
  clipboard after = clipboard st /\ clipboard_html after = clipboard_html st
  /\ tabs after = opened st urls /\ open_tab after = open_tab st
  /\ queue after = []
  /\ exists evs,
       log after = log st ++ evs
       /\ responses evs = [RespSuccess None; RespText (clipboard st)]
       /\ tabs_created evs = urls.
Proof.
  intros Hq. cbv zeta. rewrite (deliver_paste message st Hq). cbv zeta.
  destruct (paste_frame {| paste_message := Some message |}
              (set_log (log st ++ [EvSendResponse (RespSuccess None)]) st))
    as (Ht & Hc & Hh & _ & _ & Hop & evs & Hlog & Hr & Hcre).
  cbn [tabs clipboard clipboard_html queue open_tab log set_log set_queue] in *.
  rewrite Hlog.
  split; [assumption|]. split; [assumption|].
  split; [rewrite Ht; now apply opened_frame|].
  split; [assumption|]. split; [reflexivity|].
  exists ([EvSendResponse (RespSuccess None)] ++ evs
          ++ [EvSendResponse (RespText (clipboard st))]).
  split; [now rewrite <- !app_assoc|].
  rewrite !responses_app, !tabs_created_app, Hr, Hcre. simpl.
  now rewrite app_nil_r.
Qed.

Lemma events_since_app st st' evs :
  log st' = log st ++ evs -> events_since st st' = evs.
Proof. unfold events_since. intros ->. apply drop_app_length. Qed.

Lemma opened_app st urls more :
  fold_left (fun all u => open_tab st u all) more (opened st urls)
  = opened st (urls ++ more).
Proof. unfold opened. now rewrite fold_left_app. Qed.

(** X4. A paste command leaves the clipboard as it was; it asks for one tab
    per URL extracted from the clipboard text, in order, and the open tabs
    afterwards are what the browser makes of these requests, one after the
    other; a second paste command asks for the same tabs again. *)
Theorem paste_command_end_to_end (st : State) (message : PasteMessage) :
  queue st = [] ->
  let mode := Action.useIntelligentPaste {| paste_message := Some message |} in
  let urls := Action.extract mode (clipboard st) in
  let once := EventLoop.deliver (MPaste message) st in
  let twice := EventLoop.deliver (MPaste message) once in
  clipboard once = clipboard st
  /\ clipboard_html once = clipboard_html st
  /\ tabs once = fold_left (fun all u => open_tab st u all) urls (tabs st)
  /\ queue once = []
  /\ tabs_created (log once) = tabs_created (log st) ++ urls
  /\ tabs_created (log twice) = tabs_created (log st) ++ urls ++ urls
  /\ tabs twice = fold_left (fun all u => open_tab st u all) (urls ++ urls) (tabs st).
Proof.
  intros Hq. cbv zeta.
  destruct (paste_delivered message st Hq)
    as (Hc & Hh & Ht & Hop & Hqu & evs & Hlog & _ & Hcre).
  destruct (paste_delivered message _ Hqu)
    as (_ & _ & Ht2 & _ & _ & evs2 & Hlog2 & _ & Hcre2).
  cbv zeta in *. rewrite Hc in Hcre2, Ht2.
  rewrite Hlog2, Hlog, !tabs_created_app, Hcre, Hcre2, <- app_assoc.
  rewrite Ht2. unfold opened at 1. rewrite Hop, Ht, opened_app.
  repeat split; assumption || reflexivity.
Qed.

Lemma paste_command_end_to_end_witness :
  let st := set_clipboard (lit "http://a.test") None browser in
  queue st = []
  /\ tabs_created (log (EventLoop.deliver (MPaste {| msg_intelligent := Some true |}) st))
     = [lit "http://a.test"]
  /\ tabs (EventLoop.deliver (MPaste {| msg_intelligent := Some true |}) st)
     = three_tabs ++ [tab_at 1 (lit "http://a.test")].
Proof.
  intros st.
  destruct (paste_command_end_to_end st {| msg_intelligent := Some true |} eq_refl)
    as (_ & _ & Ht & _ & H & _).
  split; [reflexivity|]. split; [rewrite H|rewrite Ht]; reflexivity.
Defined.

(** X5. Copy, then paste.  When nothing is pending, a copy command
    followed by a paste command in line-split mode asks for one tab per
    copied tab, with the same URLs in the same order, provided at least one
    tab was selected and every URL is free of line feeds, of white space at
    its ends and of anchors, and is not empty.  When no tab was selected the
    paste asks for a single tab whose URL is the placeholder [<empty>]. *)
Theorem copy_then_paste (st : State) (message : CopyMessage) (intelligent : option bool) :
  queue st = [] ->
  intelligent <> Some true ->
  let sel := selected_tabs message st in
  let after := EventLoop.deliver (MPaste {| msg_intelligent := intelligent |})
                 (EventLoop.deliver (MCopy message) st) in
  (sel <> [] -> Forall (fun tab => line_safe (url tab)) sel ->
   tabs_created (log after) = tabs_created (log st) ++ map url sel)
  /\ (sel = [] ->
      tabs_created (log after) = tabs_created (log st) ++ [lit "<empty>"]).
Proof.
  intros Hq Hi. cbv zeta.
  rewrite (deliver_copy message st Hq).
  destruct (copy_command_done_facts message st)
    as (Hc & _ & _ & _ & _ & Hqu & evs & Hlog & _ & Hcre & _).
  destruct (paste_delivered {| msg_intelligent := intelligent |} _ Hqu)
    as (_ & _ & _ & _ & _ & evs2 & Hlog2 & _ & Hp).
  cbv zeta in Hp.
  rewrite Hlog2, Hlog, !tabs_created_app, Hcre, app_nil_r, Hp, Hc, placeholder_or_text.
  replace (Action.useIntelligentPaste
             {| paste_message := Some {| msg_intelligent := intelligent |} |})
    with false by (destruct intelligent as [[]|]; [congruence|reflexivity..]).
  split.
  - intros Hne Hsafe. f_equal.
    destruct (selected_tabs message st) as [|tab sel] eqn:E; [congruence|].
    apply extract_toText. exact Hsafe.
  - intros ->. reflexivity.
Qed.

Lemma copy_then_paste_witness :
  queue browser = [] /\ Some false <> Some true
  /\ tabs_created
       (log (EventLoop.deliver (MPaste {| msg_intelligent := Some false |})
               (EventLoop.deliver (MCopy (Popup.copy_click true)) browser)))
     = map url three_tabs.
Proof.
  assert (Hi : Some false <> Some true) by discriminate.
  destruct (copy_then_paste browser (Popup.copy_click true) (Some false) eq_refl Hi)
    as (H & _).
  split; [reflexivity|]. split; [exact Hi|].
  apply H; [discriminate|].
  repeat (constructor;
          [split; [reflexivity|split; [reflexivity|split;
             [discriminate|apply sample_url_no_anchor; reflexivity]]]|]).
  constructor.
Defined.

(** X6. The responses of the listener.  When nothing is pending, the
    service worker's listener calls [sendResponse] once for a copy command,
    with a success and count 0; once for a request for the recent update,
    with [false]; once for a [paste-result] message, with its text; and not
    at all for any other message.  For a paste command it answers at once
    with a success without count, and the paste it started then makes the
    helper send a [paste-result] message, which the listener answers with
    the clipboard text: two calls of [sendResponse] in all, the first of
    them for the command. *)
Theorem responses_per_command (st : State) (message : Message) :
  queue st = [] ->
  responses (log (EventLoop.deliver message st))
  = responses (log st)
    ++ match message with
       | MCopy _ => [RespSuccess (Some 0)]
       | MPaste _ => [RespSuccess None; RespText (clipboard st)]
       | MCheckRecentUpdate => [RespRecentUpdate false]
       | MPasteResult text => [RespText text]
       | MOther => []
       end.
Proof.
  intros Hq. destruct message as [m|m| |text|].
  - rewrite (deliver_copy m st Hq).
    destruct (copy_command_done_facts m st)
      as (_ & _ & _ & _ & _ & _ & evs & -> & Hr & _).
    now rewrite responses_app, Hr.
  - destruct (paste_delivered m st Hq) as (_ & _ & _ & _ & _ & evs & -> & Hr & _).
    now rewrite responses_app, Hr.
  - destruct st as [o d t cw cl ch ce qu lg op]. simpl in Hq. subst qu.
    unfold EventLoop.deliver. simpl. now rewrite responses_app.
  - destruct st as [o d t cw cl ch ce qu lg op]. simpl in Hq. subst qu.
    unfold EventLoop.deliver. simpl. now rewrite responses_app.
  - destruct st as [o d t cw cl ch ce qu lg op]. simpl in Hq. subst qu.
    unfold EventLoop.deliver. simpl. now rewrite app_nil_r.
Qed.

Lemma responses_per_command_witness :
  let st := set_clipboard (lit "http://a.test") None browser in
  queue st = []
  /\ responses (log (EventLoop.deliver MCheckRecentUpdate st)) = [RespRecentUpdate false]
  /\ responses (log (EventLoop.deliver (MPaste Popup.paste_click) st))
     = [RespSuccess None; RespText (lit "http://a.test")].
Proof.
  intros st. split; [reflexivity|]. split.
  - exact (responses_per_command st MCheckRecentUpdate eq_refl).
  - exact (responses_per_command st (MPaste Popup.paste_click) eq_refl).
Defined.

(** X7. What the popup shows.  The callback of the popup's [sendMessage]
    gets the response to the popup's own message.  When nothing is pending,
    the status line after the copy button reads "Copied all URLs!" in green
    whatever the box says and however many tabs were copied, and after the
    paste button it reads "Pasted all URLs!" in green whatever the clipboard
    holds, also when no URL is found in it: the replies carry a count of 0
    and no count, and the popup prints "all" for both. *)
Theorem popup_status_after_click (st : State) (checked : bool) :
  queue st = [] ->
  (let after := EventLoop.deliver (MCopy (Popup.copy_click checked)) st in
   reply st after = Some (RespSuccess (Some 0))
   /\ Popup.copy_response (reply st after)
      = {| Popup.textContent := lit "Copied all URLs!";
           Popup.color := lit "green";
           Popup.backgroundColor := lit "#eeffee" |})
  /\ (let after := EventLoop.deliver (MPaste Popup.paste_click) st in
      reply st after = Some (RespSuccess None)
      /\ Popup.paste_response (reply st after)
         = {| Popup.textContent := lit "Pasted all URLs!";
              Popup.color := lit "green";
              Popup.backgroundColor := lit "#eeffee" |}).
Proof.
  intros Hq. cbv zeta. unfold reply. split.
  - rewrite (deliver_copy _ st Hq).
    destruct (copy_command_done_facts (Popup.copy_click checked) st)
      as (_ & _ & _ & _ & _ & _ & evs & Hlog & Hr & _).
    rewrite (events_since_app _ _ _ Hlog), Hr. split; reflexivity.
  - destruct (paste_delivered Popup.paste_click st Hq)
      as (_ & _ & _ & _ & _ & evs & Hlog & Hr & _).
    rewrite (events_since_app _ _ _ Hlog), Hr. split; reflexivity.
Qed.

Lemma popup_status_after_click_witness :
  let st := set_clipboard (lit "http://a.test") None browser in
  queue st = []
  /\ Popup.textContent
       (Popup.copy_response
          (reply st (EventLoop.deliver (MCopy (Popup.copy_click true)) st)))
     = lit "Copied all URLs!"
  /\ Popup.textContent
       (Popup.paste_response
          (reply st (EventLoop.deliver (MPaste Popup.paste_click) st)))
     = lit "Pasted all URLs!".
Proof.
  intros st.
  destruct (popup_status_after_click st true eq_refl) as ((_ & H1) & (_ & H2)).
  split; [reflexivity|]. cbv zeta in H1, H2. now rewrite H1, H2.
Defined.

(* ===================================================================== *)
(** ** Reading the clipboard, and reading back what was written *)
(* ===================================================================== *)

Lemma ensured_documents_created st :
  documents_created (log (ensured st))
  = documents_created (log st) + (1 - live_helpers st).
Proof.
  unfold ensured, live_helpers. destruct (offscreen st); cbn [log set_log set_offscreen
    set_document]; rewrite !documents_created_app;
    change (documents_created [EvGetContexts]) with 0;
    change (documents_created [EvCreateDocument]) with 1; lia.
Qed.

(** X8. [Clipboard.read] returns the text of the system clipboard in every
    state, whether the helper exists or has to be created, and never
    throws; it leaves the clipboard and the open tabs as they were;
    afterwards the helper exists, its buffer holds the text read, the
    helper's [paste-result] message with that text is pending for the
    service worker's listener after the tasks that were pending before, and
    the creation primitive was called once if there was no helper and not at
    all if there was one. *)
Theorem clipboard_read_contract (st : State) :
  let after := final Clipboard.read st in
  outcome Clipboard.read st = Ok (clipboard st)
  /\ clipboard after = clipboard st
  /\ clipboard_html after = clipboard_html st
  /\ tabs after = tabs st
  /\ queue after = queue st ++ [TWorkerMessage (MPasteResult (clipboard st))]
  /\ offscreen after = Ready
  /\ buffer_value (document after) = clipboard st
  /\ documents_created (log after)
     = documents_created (log st) + (1 - live_helpers st).
Proof.
  cbv zeta. unfold outcome, final. rewrite read_run. cbn [fst snd].
  destruct (after_read_frame st) as (Ht & Hc & Hh & Hq & Ho & _).
  repeat split; try assumption.
  unfold after_read. cbn [log set_document set_queue set_log].
  rewrite !documents_created_app, ensured_documents_created.
  change (documents_created [EvSendMessage ToOffscreenPaste]) with 0.
  change (documents_created [EvSendMessage (PasteResultMsg (clipboard st))]) with 0.
  lia.
Qed.

Lemma drain_write_task st str ext :
  EventLoop.drain 2 (set_queue [TClipboardWrite str ext] st)
  = let st' := ensured st in
    let text := text_or_placeholder str in
    set_document {| buffer_value := text; buffer_selected := true;
                    oncopy := oncopy (document st') |}
      (set_clipboard text (match ext with Some true => Some text | _ => None end)
         (set_queue []
            (set_log (log st' ++ [EvSendMessage (ToOffscreenCopy (Some text) ext)]) st'))).
Proof.
  erewrite drain_cons by reflexivity. rewrite run_write_task. cbv zeta.
  rewrite ensured_queue. cbn [queue set_queue app].
  erewrite drain_cons by reflexivity.
  rewrite run_offscreen_copy_task, text_or_placeholder_twice.
  cbn [EventLoop.drain].
  unfold ensured. destruct st as [[] ? ? ? ? ? ? ? ? ?]; reflexivity.
Qed.

(** X9. Reading back what was written.  Once a detached [Clipboard.write]
    of a text has run and the helper has handled its message, nothing is
    pending and [Clipboard.read] returns that text; but the empty string
    and [undefined] are read back as the placeholder [<empty>], so what is
    read back is never empty.  The HTML flavour of the clipboard is the same
    text when [extended_mime] is [true] and is cleared otherwise. *)
Theorem write_then_read (st : State) (str : option jsstring) (extended_mime : option bool) :
  let relayed := EventLoop.drain 2 (set_queue [TClipboardWrite str extended_mime] st) in
  outcome Clipboard.read relayed
  = Ok (match str with Some (c :: s) => c :: s | _ => lit "<empty>" end)
  /\ outcome Clipboard.read relayed <> Ok []
  /\ clipboard_html relayed
     = match extended_mime with
       | Some true => Some (match str with Some (c :: s) => c :: s | _ => lit "<empty>" end)
       | _ => None
       end
  /\ queue relayed = []
  /\ offscreen relayed = Ready.
Proof.
  cbv zeta. unfold outcome. rewrite read_run, drain_write_task. cbv zeta.
  cbn [fst clipboard clipboard_html queue offscreen set_document set_clipboard
       set_queue set_log].
  rewrite ensured_ready.
  repeat split; try reflexivity.
  destruct str as [[|c s]|]; discriminate.
Qed.

(* ===================================================================== *)
(** ** The HTML encoder *)
(* ===================================================================== *)

Lemma flat_map_flat_map {A B C} (f : A -> list B) (g : B -> list C) (l : list A) :
  flat_map g (flat_map f l) = flat_map (fun x => flat_map g (f x)) l.
Proof.
  induction l as [|x l IH]; [reflexivity|].
  simpl. now rewrite flat_map_app, IH.
Qed.

Lemma flat_map_ext_all {A B} (f g : A -> list B) (l : list A) :
  (forall x, f x = g x) -> flat_map f l = flat_map g l.
Proof. intros H. induction l as [|x l IH]; simpl; [reflexivity|]. now rewrite H, IH. Qed.

Lemma htmlEncode_entities (text : jsstring) :
  Legacy.htmlEntityEncoder.htmlEncode text = flat_map entity text.
Proof.
  unfold Legacy.htmlEntityEncoder.htmlEncode, Legacy.replace_char.
  rewrite !flat_map_flat_map. apply flat_map_ext_all. intros c.
  unfold entity, DQUOTE.
  destruct (N.eqb_spec c 38) as [->|H1]; [reflexivity|].
  destruct (N.eqb_spec c 60) as [->|H2]; [reflexivity|].
  destruct (N.eqb_spec c 62) as [->|H3]; [reflexivity|].
  destruct (N.eqb_spec c 34) as [->|H4]; [reflexivity|].
  destruct (N.eqb_spec c 39) as [->|H5]; [reflexivity|].
  apply N.eqb_neq in H2, H3, H4, H5.
  cbn [flat_map app]. rewrite H2.
  cbn [flat_map app]. rewrite H3.
  cbn [flat_map app]. rewrite H4.
  cbn [flat_map app]. rewrite H5.
  reflexivity.
Qed.

(** The five cases of [entity], and the case of any other character. *)
Lemma entity_cases c :
  (c = 38%N /\ entity c = lit "&amp;") \/ (c = 60%N /\ entity c = lit "&lt;")
  \/ (c = 62%N /\ entity c = lit "&gt;") \/ (c = 34%N /\ entity c = lit "&quot;")
  \/ (c = 39%N /\ entity c = lit "&#39;")
  \/ (c <> 38%N /\ c <> 60%N /\ c <> 62%N /\ c <> 34%N /\ c <> 39%N /\ entity c = [c]).
Proof.
  unfold entity, DQUOTE.
  destruct (N.eqb_spec c 38) as [->|H1]; [tauto|].
  destruct (N.eqb_spec c 60) as [->|H2]; [tauto|].
  destruct (N.eqb_spec c 62) as [->|H3]; [tauto|].
  destruct (N.eqb_spec c 34) as [->|H4]; [tauto|].
  destruct (N.eqb_spec c 39) as [->|H5]; [tauto|].
  do 5 right. auto 10.
Qed.

Lemma entity_chars c x :
  In x (entity c) -> x <> 60%N /\ x <> 62%N /\ x <> 34%N /\ x <> 39%N /\ (x = LF -> c = LF).
Proof.
  destruct (entity_cases c) as [[-> ->]|[[-> ->]|[[-> ->]|[[-> ->]|[[-> ->]|H]]]]];
    try (intros Hx; simpl in Hx;
         repeat (destruct Hx as [<-|Hx]; [repeat split; discriminate|]);
         contradiction).
  destruct H as (H1 & H2 & H3 & H4 & H5 & ->).
  intros [<-|[]]. repeat split; auto.
Qed.

Lemma htmlEncode_chars text x :
  In x (Legacy.htmlEntityEncoder.htmlEncode text) ->
  x <> 60%N /\ x <> 62%N /\ x <> 34%N /\ x <> 39%N /\ (x = LF -> In LF text).
Proof.
  rewrite htmlEncode_entities, in_flat_map. intros (c & Hc & Hx).
  apply entity_chars in Hx as (H1 & H2 & H3 & H4 & H5).
  repeat split; try assumption. intros E. now rewrite <- (H5 E).
Qed.

Lemma entity_injective c1 c2 (t1 t2 : jsstring) :
  entity c1 ++ t1 = entity c2 ++ t2 -> c1 = c2 /\ t1 = t2.
Proof.
  destruct (entity_cases c1) as [[-> ->]|[[-> ->]|[[-> ->]|[[-> ->]|[[-> ->]|H1]]]]];
    destruct (entity_cases c2) as [[-> ->]|[[-> ->]|[[-> ->]|[[-> ->]|[[-> ->]|H2]]]]];
    try (intros E; vm_compute in E; injection E; intros; subst; auto; fail);
    try (intros E; vm_compute in E; discriminate E);
    try (destruct H2 as (? & ? & ? & ? & ? & ->); intros E; vm_compute in E;
         injection E; intros; subst; congruence);
    try (destruct H1 as (? & ? & ? & ? & ? & ->); intros E; vm_compute in E;
         injection E; intros; subst; congruence).
  destruct H1 as (? & ? & ? & ? & ? & ->).
  destruct H2 as (? & ? & ? & ? & ? & ->). simpl. intros [= -> ->]. auto.
Qed.

Lemma flat_map_entity_injective (s1 : jsstring) : forall s2 : jsstring,
  flat_map entity s1 = flat_map entity s2 -> s1 = s2.
Proof.
  assert (Hne : forall c (t : jsstring), entity c ++ t <> []).
  { intros c t E. apply app_eq_nil in E as [E _].
    destruct (entity_cases c) as [[_ H]|[[_ H]|[[_ H]|[[_ H]|[[_ H]|H]]]]];
      try (rewrite H in E; discriminate).
    destruct H as (_ & _ & _ & _ & _ & H). rewrite H in E. discriminate. }
  induction s1 as [|c1 s1 IH]; intros [|c2 s2]; simpl; intros E.
  - reflexivity.
  - symmetry in E. now apply Hne in E.
  - now apply Hne in E.
  - apply entity_injective in E as [-> E]. f_equal. now apply IH.
Qed.

(** X11. [htmlEncode] replaces, in one pass as it were, each of the five
    characters [&], [<], [>], the double quote and the apostrophe by its
    entity and keeps every other character: the ampersands that the later
    replacements bring in are not encoded a second time.  The result holds
    no [<], [>], double quote or apostrophe; two different texts have
    different encodings; a text without the five characters is unchanged;
    and the encoding of a concatenation is the concatenation of the
    encodings. *)
Theorem htmlEncode_contract :
  (forall text, Legacy.htmlEntityEncoder.htmlEncode text = flat_map entity text)
  /\ (forall text x,
        In x (Legacy.htmlEntityEncoder.htmlEncode text) ->
        x <> 60%N /\ x <> 62%N /\ x <> DQUOTE /\ x <> 39%N)
  /\ (forall t1 t2,
        Legacy.htmlEntityEncoder.htmlEncode t1 = Legacy.htmlEntityEncoder.htmlEncode t2 ->
        t1 = t2)
  /\ (forall text,
        (forall x, In x text ->
                   x <> 38%N /\ x <> 60%N /\ x <> 62%N /\ x <> DQUOTE /\ x <> 39%N) ->
        Legacy.htmlEntityEncoder.htmlEncode text = text)
  /\ (forall t1 t2,
        Legacy.htmlEntityEncoder.htmlEncode (t1 ++ t2)
        = Legacy.htmlEntityEncoder.htmlEncode t1 ++ Legacy.htmlEntityEncoder.htmlEncode t2).
Proof.
  split; [exact htmlEncode_entities|].
  split; [|split; [|split]].
  - intros text x H. apply htmlEncode_chars in H. tauto.
  - intros t1 t2. rewrite !htmlEncode_entities. apply flat_map_entity_injective.
  - intros text H. rewrite htmlEncode_entities.
    induction text as [|c text IH]; [reflexivity|]. simpl.
    rewrite IH by (intros x Hx; apply H; now right).
    destruct (H c (or_introl eq_refl)) as (H1 & H2 & H3 & H4 & H5).
    destruct (entity_cases c) as [[E _]|[[E _]|[[E _]|[[E _]|[[E _]|E]]]]];
      try (unfold DQUOTE in *; congruence).
    destruct E as (_ & _ & _ & _ & _ & ->). reflexivity.
  - intros t1 t2. rewrite !htmlEncode_entities. apply flat_map_app.
Qed.

Lemma htmlEncode_contract_witness :
  Legacy.htmlEntityEncoder.htmlEncode (lit "a<b>&c")
  = lit "a&lt;b&gt;&amp;c"
  /\ Legacy.htmlEntityEncoder.htmlEncode (lit "plain text") = lit "plain text".
Proof.
  destruct htmlEncode_contract as (_ & _ & _ & H & _).
  split; [reflexivity|]. apply H.
  intros x Hx. simpl in Hx.
  repeat (destruct Hx as [<-|Hx]; [repeat split; discriminate|]). contradiction.
Defined.

(* ===================================================================== *)
(** ** The HTML format, and pasting it *)
(* ===================================================================== *)

Lemma has_lf_false_iff (s : jsstring) : has_lf s = false <-> ~ In LF s.
Proof.
  unfold has_lf. split.
  - intros H Hin. assert (E : existsb (fun c => (c =? LF)%N) s = true).
    { apply existsb_exists. exists LF. split; [assumption|apply N.eqb_refl]. }
    congruence.
  - intros H. destruct (existsb _ s) eqn:E; [|reflexivity].
    apply existsb_exists in E as (c & Hc & E). apply N.eqb_eq in E. now subst c.
Qed.

Lemma split_at_first (x : N) (l1 : jsstring) : forall (l2 r1 r2 : jsstring),
  ~ In x l1 -> ~ In x l2 -> l1 ++ x :: r1 = l2 ++ x :: r2 -> l1 = l2 /\ r1 = r2.
Proof.
  induction l1 as [|c l1 IH]; intros [|c2 l2] r1 r2 H1 H2 E; simpl in *.
  - injection E as ->. auto.
  - injection E as <- _. tauto.
  - injection E as -> _. tauto.
  - injection E as -> E. apply IH in E as [-> ->]; tauto.
Qed.

(** In a string with exactly two double quotes, the only quote-free text
    between two quotes is the text between those two. *)
Lemma between_quotes (A u0 B P u R : jsstring) :
  ~ In DQUOTE A -> ~ In DQUOTE u0 -> ~ In DQUOTE B -> ~ In DQUOTE u ->
  A ++ DQUOTE :: u0 ++ DQUOTE :: B = P ++ DQUOTE :: u ++ DQUOTE :: R ->
  u = u0.
Proof.
  intros HA Hu0 HB Hu E.
  assert (HP : ~ In DQUOTE P).
  { apply (f_equal (fun l => count_occ N.eq_dec l DQUOTE)) in E.
    rewrite !count_occ_app, !count_occ_cons_eq, !count_occ_app,
      !count_occ_cons_eq in E by reflexivity.
    apply (count_occ_not_In N.eq_dec) in HA, Hu0, HB, Hu.
    rewrite HA, Hu0, HB, Hu in E.
    apply (count_occ_not_In N.eq_dec). lia. }
  apply split_at_first in E as [_ E]; [|assumption..].
  apply split_at_first in E as [E _]; [|assumption..]. now symmetry.
Qed.

Lemma href_of_row (u B : jsstring) :
  ~ In DQUOTE u -> u <> [] -> ~ In DQUOTE B ->
  href_or_self (lit "<a href=" ++ [DQUOTE] ++ u ++ [DQUOTE] ++ B) = u.
Proof.
  intros Hu Hne HB.
  assert (A : is_anchor (lit "<a href=" ++ [DQUOTE] ++ u ++ [DQUOTE]) u).
  { exists (lit "<a"), [32%N], (lit "href="). repeat split.
    - repeat constructor.
    - discriminate.
    - repeat constructor. discriminate.
    - repeat constructor.
    - assumption.
    - apply Forall_forall. intros c Hc E. apply Hu. apply list_elem_of_In in Hc.
      now rewrite <- E. }
  destruct (exec_complete true anchor_pattern [] _ B _
              (anchor_pattern_complete _ _ A)) as [[w caps] E].
  rewrite <- !app_assoc in E. cbn [app] in E.
  unfold href_or_self.
  change (lit "<a href=" ++ [DQUOTE] ++ u ++ [DQUOTE] ++ B)
    with (lit "<a href=" ++ DQUOTE :: u ++ DQUOTE :: B).
  assert (E' : exec true anchor_pattern (lit "<a href=" ++ DQUOTE :: u ++ DQUOTE :: B)
               = Some (w, caps)) by exact E.
  rewrite E'.
  apply exec_anchor_Some in E' as (u' & pre & post & -> & Hseg & a & mid & h & -> & _ &
                                    _ & _ & _ & Hne' & Hu').
  assert (u' = u).
  { apply (between_quotes (lit "<a href=") u B (pre ++ a ++ mid ++ h) u' post).
    - intros H. simpl in H. repeat (destruct H as [H|H]; [discriminate H|]). exact H.
    - assumption.
    - assumption.
    - intros H. rewrite Forall_forall in Hu'. apply list_elem_of_In in H.
      now apply Hu' in H.
    - rewrite Hseg. rewrite <- !app_assoc. reflexivity. }
  subst u'. destruct u; [congruence|reflexivity].
Qed.

Lemma html_loop_from anchor (pre rest : list Tab) (acc : jsstring) :
  fold_left (Legacy.CopyTo.html_step anchor (pre ++ rest))
    (seq (length pre) (length rest)) acc
  = acc ++ concat (map (Legacy.CopyTo.html_row anchor) rest).
Proof.
  revert pre acc.
  induction rest as [|tab rest IH]; intros pre acc;
    cbn [length seq fold_left map concat].
  - now rewrite app_nil_r.
  - unfold Legacy.CopyTo.html_step at 2.
    rewrite list_lookup_middle by reflexivity.
    replace (pre ++ tab :: rest) with ((pre ++ [tab]) ++ rest)
      by now rewrite <- app_assoc.
    replace (S (length pre)) with (length (pre ++ [tab]))
      by (rewrite length_app; simpl; lia).
    rewrite IH. rewrite <- (app_assoc acc). reflexivity.
Qed.

Lemma split_lf_rows {A} (body : A -> jsstring) (l : list A) :
  Forall (fun x => has_lf (body x) = false) l ->
  split_lf (concat (map (fun x => body x ++ [LF]) l)) = map body l ++ [[]].
Proof.
  induction 1 as [|x l Hx _ IH]; [reflexivity|].
  cbn [map concat]. rewrite <- app_assoc. cbn [app].
  now rewrite split_lf_app_lf, IH.
Qed.

Lemma extract_rows {A} (body url_of : A -> jsstring) (l : list A) :
  Forall (fun x => has_lf (body x) = false
                   /\ str_trim (href_or_self (body x)) = url_of x
                   /\ url_of x <> []) l ->
  Action.extract false (concat (map (fun x => body x ++ [LF]) l)) = map url_of l.
Proof.
  intros H. rewrite extract_line_split. unfold extract_lines.
  rewrite split_lf_rows
    by (eapply Forall_impl; [exact H|]; intros x (Hlf & _); exact Hlf).
  rewrite map_app, List.filter_app. simpl.
  replace (truthy (str_trim (href_or_self []))) with false by reflexivity.
  rewrite app_nil_r.
  induction H as [|x l (_ & Hx & Hne) _ IH]; [reflexivity|].
  simpl. rewrite Hx, IH. now destruct (url_of x).
Qed.

Lemma in_app3 (x : N) (a b c : jsstring) :
  In x (a ++ b ++ c) -> In x a \/ In x b \/ In x c.
Proof. rewrite !in_app_iff. tauto. Qed.

(** X12. The HTML format, and pasting it.  Where [localStorage] is defined,
    [CopyTo.html] gives one anchor per tab and line, and the line-split
    extraction of [Action.paste] gives back from that text the URLs of the
    tabs in order, whichever of URL and title the [anchor] setting puts into
    the anchors, provided every URL is non-empty and free of line feeds, of
    double quotes and of white space at its ends, and, when the titles are
    used, no title holds a line feed.  Where [localStorage] is not defined
    [CopyTo.html] throws. *)
Theorem html_then_paste (items : gmap string (list N)) (tabs : list Tab) :
  Forall (fun tab =>
            has_lf (url tab) = false /\ ~ In DQUOTE (url tab) /\ url tab <> []
            /\ str_trim (url tab) = url tab
            /\ (items !! "anchor"%string = Some (lit "title") ->
                has_lf (title tab) = false)) tabs ->
  (exists text,
      Legacy.CopyTo.html (Some items) tabs = Ok text
      /\ Action.extract false text = map url tabs)
  /\ Legacy.CopyTo.html None tabs = Throw (lit "localStorage is not defined").
Proof.
  intros H. split; [|reflexivity].
  unfold Legacy.CopyTo.html, Legacy.storage_item.
  set (anchor := match items !! "anchor"%string with
                 | Some v => if truthy v then v else lit "url"
                 | None => lit "url"
                 end).
  exists (concat (map (Legacy.CopyTo.html_row anchor) tabs)).
  split; [f_equal; exact (html_loop_from anchor [] tabs [])|].
  set (ra := fun tab : Tab =>
               if bool_decide (anchor = lit "title")
               then Legacy.htmlEntityEncoder.htmlEncode (title tab)
               else url tab).
  set (body := fun tab : Tab =>
                 lit "<a href=" ++ [DQUOTE] ++ url tab ++ [DQUOTE]
                   ++ (lit ">" ++ ra tab ++ lit "</a><br/>")).
  assert (Hrow : forall tab, Legacy.CopyTo.html_row anchor tab = body tab ++ [LF]).
  { intros tab. unfold Legacy.CopyTo.html_row, body, ra. cbv zeta.
    now rewrite <- !app_assoc. }
  rewrite (map_ext _ _ Hrow).
  apply extract_rows.
  eapply Forall_impl; [exact H|].
  intros tab (Hlf & Hq & Hne & Htrim & Htitle).
  assert (Hra : ~ In DQUOTE (ra tab) /\ ~ In LF (ra tab)).
  { unfold ra. destruct (bool_decide (anchor = lit "title")) eqn:Hd.
    - apply bool_decide_eq_true in Hd.
      assert (Hset : items !! "anchor"%string = Some (lit "title")).
      { unfold anchor in Hd. destruct (items !! "anchor"%string) as [v|];
          [|discriminate Hd].
        destruct (truthy v); [now subst v|discriminate Hd]. }
      split.
      + intros Hin. now apply htmlEncode_chars in Hin as (_ & _ & Hx & _).
      + intros Hin. apply htmlEncode_chars in Hin as (_ & _ & _ & _ & Hx).
        apply (proj1 (has_lf_false_iff _) (Htitle Hset)). now apply Hx.
    - split; [assumption|now apply has_lf_false_iff]. }
  destruct Hra as (Hraq & Hralf).
  assert (Hlit : forall x (s : jsstring),
            forallb (fun c => negb (c =? x)%N) s = true -> ~ In x s).
  { intros x s Hs Hin. rewrite forallb_forall in Hs. apply Hs in Hin.
    now rewrite N.eqb_refl in Hin. }
  split; [|split; [|assumption]].
  - apply has_lf_false_iff. unfold body. intros Hin.
    apply has_lf_false_iff in Hlf.
    apply in_app_iff in Hin as [Hin|Hin]; [now apply (Hlit LF) in Hin|].
    apply in_app_iff in Hin as [Hin|Hin]; [now apply (Hlit LF) in Hin|].
    apply in_app_iff in Hin as [Hin|Hin]; [contradiction|].
    apply in_app_iff in Hin as [Hin|Hin]; [now apply (Hlit LF) in Hin|].
    apply in_app3 in Hin as [Hin|[Hin|Hin]];
      [now apply (Hlit LF) in Hin|contradiction|now apply (Hlit LF) in Hin].
  - unfold body. rewrite href_of_row; [assumption..|].
    intros Hin. apply in_app3 in Hin as [Hin|[Hin|Hin]];
      [now apply (Hlit DQUOTE) in Hin|contradiction|now apply (Hlit DQUOTE) in Hin].
Qed.

Lemma html_then_paste_witness :
  let items : gmap string (list N) := {[ "anchor"%string := lit "title" ]} in
  let tabs := [ {| url := lit "http://a.test/?q=1&r=2"; title := lit "A <b> & C";
                   windowId := 1; highlighted := false |};
                {| url := lit "https://b.test/path"; title := lit "say 'hi'";
                   windowId := 2; highlighted := false |} ] in
  Legacy.CopyTo.html (Some items) tabs
  = Ok (lit "<a href=" ++ [DQUOTE] ++ lit "http://a.test/?q=1&r=2" ++ [DQUOTE]
          ++ lit ">A &lt;b&gt; &amp; C</a><br/>" ++ [LF]
          ++ lit "<a href=" ++ [DQUOTE] ++ lit "https://b.test/path" ++ [DQUOTE]
          ++ lit ">say &#39;hi&#39;</a><br/>" ++ [LF])
  /\ exists text,
       Legacy.CopyTo.html (Some items) tabs = Ok text
       /\ Action.extract false text = map url tabs.
Proof.
  intros items tabs. split; [vm_compute; reflexivity|].
  apply (html_then_paste items tabs).
  repeat (constructor;
          [split; [reflexivity|split;
             [intros Hin; vm_compute in Hin;
              repeat (destruct Hin as [Hin|Hin]; [discriminate Hin|]); exact Hin
             |split; [discriminate|split; [reflexivity|intros _; reflexivity]]]]|]).
  constructor.
Defined.

(* ===================================================================== *)
(** ** What the line-split extraction returns *)
(* ===================================================================== *)

Lemma str_trim_incl (s : jsstring) x : In x (str_trim s) -> In x s.
Proof.
  destruct (str_trim_spec s) as (l & r & E & _). intros H.
  rewrite E, !in_app_iff. tauto.
Qed.

Lemma contains_anchor_within (l x r : jsstring) :
  contains_anchor x -> contains_anchor (l ++ x ++ r).
Proof.
  intros (pre & w & u & post & -> & A).
  exists (l ++ pre), w, u, (post ++ r). split; [|assumption].
  now rewrite <- !app_assoc.
Qed.

Lemma anchor_has_quote (x : jsstring) : contains_anchor x -> In DQUOTE x.
Proof.
  intros (pre & w & u & post & -> & a & mid & h & -> & _).
  rewrite !in_app_iff. simpl. tauto.
Qed.

Lemma href_or_self_props (seg : jsstring) :
  ~ contains_anchor (href_or_self seg) /\ forall x, In x (href_or_self seg) -> In x seg.
Proof.
  unfold href_or_self.
  destruct (exec true anchor_pattern seg) as [[w caps]|] eqn:E.
  - apply exec_anchor_Some in E as (u & pre & post & -> & -> & a & mid & h & -> & _ &
                                     _ & _ & _ & Hne & Hu).
    destruct u as [|c u]; [congruence|]. cbn [truthy]. split.
    + intros A. apply anchor_has_quote, list_elem_of_In in A.
      rewrite Forall_forall in Hu. now apply Hu in A.
    + intros x Hx. rewrite !in_app_iff. tauto.
  - split; [now apply exec_anchor_None|auto].
Qed.

Lemma extract_lines_safe (text : jsstring) : Forall line_safe (Action.extract false text).
Proof.
  rewrite extract_line_split. unfold extract_lines.
  apply Forall_forall. intros u Hu. apply list_elem_of_In, filter_In in Hu as [Hu Hne].
  apply in_map_iff in Hu as (seg & <- & Hseg).
  destruct (href_or_self_props seg) as (Hanchor & Hincl).
  pose proof (split_lf_segments text) as Hlf. rewrite Forall_forall in Hlf.
  apply list_elem_of_In, Hlf, has_lf_false_iff in Hseg.
  repeat split.
  - apply has_lf_false_iff. intros H. apply Hseg, Hincl, str_trim_incl, H.
  - apply str_trim_idempotent.
  - intros E. now rewrite E in Hne.
  - intros A. apply Hanchor.
    destruct (str_trim_spec (href_or_self seg)) as (l & r & E & _).
    rewrite E. now apply contains_anchor_within.
Qed.

(** X13. Every URL the line-split extraction returns is fit for the round
    trip: it is not empty, holds no line feed and no anchor, and has no
    white space at its ends.  So tabs that carry the extracted URLs, copied
    in the text format and pasted in line-split mode, give the same URLs
    again. *)
Theorem extracted_urls_round_trip :
  (forall text, Forall line_safe (Action.extract false text))
  /\ (forall text (tabs : list Tab),
        map url tabs = Action.extract false text ->
        Action.extract false (CopyTo.text tabs) = Action.extract false text).
Proof.
  split; [exact extract_lines_safe|].
  intros text tabs H. rewrite text_toText, <- H. apply extract_toText.
  pose proof (extract_lines_safe text) as Hs. rewrite <- H in Hs.
  apply Forall_forall. intros tab Ht. rewrite Forall_forall in Hs.
  apply (Hs (url tab)), list_elem_of_In, in_map. now apply list_elem_of_In.
Qed.

Lemma extracted_urls_round_trip_witness :
  let text := lit " <a class=x href=" ++ [DQUOTE] ++ lit "http://a.test" ++ [DQUOTE]
              ++ lit ">A</a> " ++ [LF; LF] ++ lit "  b  " in
  let tabs := [tab_at 1 (lit "http://a.test"); tab_at 1 (lit "b")] in
  map url tabs = Action.extract false text
  /\ Action.extract false (CopyTo.text tabs) = [lit "http://a.test"; lit "b"].
Proof.
  intros text tabs.
  assert (H : map url tabs = Action.extract false text) by reflexivity.
  destruct extracted_urls_round_trip as (_ & Hrt).
  split; [exact H|]. rewrite (Hrt text tabs H). reflexivity.
Defined.

(* ===================================================================== *)
(** ** The regex mode on whole URLs *)
(* ===================================================================== *)

(** X14. The regex mode on whole URLs.  A string is matched by the URL
    pattern exactly when it is one of the five schemes in any case, [://]
    and one or more permitted characters.  When such a URL is followed in
    the text by a character that is not permitted, the regex mode returns
    it and goes on behind that character, so a URL is cut at its first
    character outside the permitted set.  Hence tabs whose URLs are URLs of
    the pattern, copied in the text format and pasted in regex mode, give
    their URLs back in order. *)
Theorem regex_mode_on_urls :
  (forall u, is_url u <-> exists caps, matches true url_pattern u caps)
  /\ (forall v x rest,
        is_url v -> url_char x = false ->
        Action.extract true (v ++ x :: rest) = v :: Action.extract true rest)
  /\ (forall tabs : list Tab,
        Forall (fun tab => is_url (url tab)) tabs ->
        Action.extract true (CopyTo.text tabs) = map url tabs).
Proof.
  split; [|split].
  - intros u. split; [apply url_pattern_complete|].
    intros [caps M]. eapply url_pattern_sound, M.
  - intros v x rest Hv Hx. rewrite !extract_regex. now apply scan_url_cut.
  - intros tabs H. rewrite extract_regex, text_toText.
    induction H as [|tab tabs Htab _ IH]; [reflexivity|].
    unfold toText in *. cbn [map concat]. rewrite <- app_assoc. cbn [app].
    rewrite scan_url_cut, IH; [reflexivity|assumption|reflexivity].
Qed.

Lemma matched_is_url (u : jsstring) caps :
  match_here true url_pattern u = Some (u, caps) -> is_url u.
Proof.
  intros H. apply match_here_sound in H as (s' & _ & M).
  eapply url_pattern_sound, M.
Defined.

Lemma regex_mode_on_urls_witness :
  is_url (lit "http://a.test/")
  /\ url_char 126 = false
  /\ Action.extract true (lit "http://a.test/~user")
     = [lit "http://a.test/"]
  /\ Action.extract true (CopyTo.text three_tabs) = map url three_tabs.
Proof.
  assert (H1 : is_url (lit "http://a.test/")) by (eapply matched_is_url; reflexivity).
  destruct regex_mode_on_urls as (_ & Hcut & Hrt).
  split; [exact H1|]. split; [reflexivity|]. split.
  - change (lit "http://a.test/~user") with (lit "http://a.test/" ++ 126%N :: lit "user").
    rewrite (Hcut _ 126%N (lit "user") H1 eq_refl). reflexivity.
  - apply Hrt. repeat (constructor; [eapply matched_is_url; reflexivity|]). constructor.
Defined.
